(** * Exact inference over a discrete Bayesian network

    A shallow embedding of [bayesian.py] (class [BayesianNet]) and of the
    part of [graph.py] it inherits from (class [DirectedGraph]), together
    with the properties of the probability engine: joint distribution,
    marginals, evidence and the inference query.

    Conventions of the embedding.
    - Python exceptions are values of [exn]; a call that may raise
      returns a [result].
    - Methods that only read the network are functions of the network;
      methods that assign to it return the network they leave behind,
      also when they raise.
    - A numpy array is its shape and its elements in row-major order.
      Elements are exact rationals: the rounding, overflow and underflow
      of float64 are not modelled, so an equation on elements stands for
      numpy's equality up to rounding, on inputs that keep the float64
      operations finite. A division by zero, which numpy answers with
      [nan] or [inf] and a warning, is [Qdiv]'s [0] here. *)

From Stdlib Require Import QArith Qfield.
From stdpp Require Import gmap strings list.

Open Scope string_scope.
Open Scope list_scope.

(** ** Exceptions and results *)

Inductive exn : Type :=
  | KeyError (key : string)
  | ValueError (msg : string)
  | AttributeError (attr : string)
  | IndexError (msg : string).

Inductive result (A : Type) : Type :=
  | Ok (a : A)
  | Raise (e : exn).
Arguments Ok {A} a.
Arguments Raise {A} e.

#[global] Instance result_ret : MRet result := fun _ a => Ok a.
#[global] Instance result_bind : MBind result := fun _ _ f r =>
  match r with
  | Ok a => f a
  | Raise e => Raise e
  end.
#[global] Instance result_fmap : FMap result := fun _ _ f r =>
  match r with
  | Ok a => Ok (f a)
  | Raise e => Raise e
  end.

(** [[f x for x in l]] where [f] may raise: the first exception wins. *)
Fixpoint traverse {A B : Type} (f : A -> result B) (l : list A) : result (list B) :=
  match l with
  | [] => Ok []
  | x :: l' => y ← f x; ys ← traverse f l'; Ok (y :: ys)
  end.

(** [for x in l: acc = f acc x] where [f] may raise. *)
Fixpoint foldM {A B : Type} (f : B -> A -> result B) (acc : B) (l : list A) : result B :=
  match l with
  | [] => Ok acc
  | x :: l' => acc' ← f acc x; foldM f acc' l'
  end.

(** ** numpy arrays *)

Module np.

Record ndarray : Type := array { shape : list nat; data : list Q }.

Definition ndim (a : ndarray) : nat := length (shape a).

(** Number of elements of an array of shape [s]. *)
Definition size (s : list nat) : nat := foldr Nat.mul 1%nat s.

(** Row-major offset of the multi-index [idx] in an array of shape [s]. *)
Fixpoint ravel (s idx : list nat) : nat :=
  match s, idx with
  | _ :: s', i :: idx' => i * size s' + ravel s' idx'
  | _, _ => 0
  end.

(** All multi-indices of an array of shape [s], in row-major order. *)
Fixpoint ndindex (s : list nat) : list (list nat) :=
  match s with
  | [] => [[]]
  | n :: s' => i ← seq 0 n; (fun idx => i :: idx) <$> ndindex s'
  end.

(** [a[idx]] for a full multi-index. *)
Definition item (a : ndarray) (idx : list nat) : Q :=
  nth (ravel (shape a) idx) (data a) 0%Q.

Definition fromfunction (s : list nat) (f : list nat -> Q) : ndarray :=
  {| shape := s; data := f <$> ndindex s |}.

Definition Qsum (l : list Q) : Q := foldr Qplus 0%Q l.
Definition Qprod (l : list Q) : Q := foldr Qmult 1%Q l.

(** [np.sum(a)] *)
Definition sum (a : ndarray) : Q := Qsum (data a).

(** [a / q], elementwise. *)
Definition divide (a : ndarray) (q : Q) : ndarray :=
  {| shape := shape a; data := (fun x => x / q)%Q <$> data a |}.

(** *** Basic indexing, [a[tuple(dimList)]]

    An entry of the index tuple is [slice(None)], which keeps the axis,
    or an integer, which selects along the axis and removes it. *)

Inductive index : Type :=
  | slice_None
  | int (i : nat).

#[global] Instance index_eq_dec : EqDecision index.
Proof. solve_decision. Defined.

(** Shape of the selection. *)
Fixpoint getitem_shape (s : list nat) (ix : list index) : list nat :=
  match s, ix with
  | n :: s', slice_None :: ix' => n :: getitem_shape s' ix'
  | _ :: s', int _ :: ix' => getitem_shape s' ix'
  | s, _ => s
  end.

(** The multi-index of the indexed array that the multi-index [k] of the
    selection reads. *)
Fixpoint getitem_source (ix : list index) (k : list nat) : list nat :=
  match ix, k with
  | int i :: ix', k => i :: getitem_source ix' k
  | slice_None :: ix', j :: k' => j :: getitem_source ix' k'
  | _, k => k
  end.

Fixpoint getitem_check (s : list nat) (ix : list index) : result unit :=
  match s, ix with
  | _, [] => Ok ()
  | [], _ :: _ => Raise (IndexError "too many indices for array")
  | n :: s', slice_None :: ix' => getitem_check s' ix'
  | n :: s', int i :: ix' =>
      if decide (i < n)%nat then getitem_check s' ix'
      else Raise (IndexError "index out of bounds")
  end.

Definition getitem (a : ndarray) (ix : list index) : result ndarray :=
  _ ← getitem_check (shape a) ix;
  Ok (fromfunction (getitem_shape (shape a) ix)
        (fun k => item a (getitem_source ix k))).

(** *** Einstein summation, [np.einsum]

    The contraction primitive is numpy's, not the repository's. Its
    model follows the contract the engine relies on: every operand comes
    with one subscript label per axis, a label stands for one index
    everywhere it occurs, and an element of the output is the sum, over
    all values of the labels absent from the output, of the product of
    the operands' elements. The call is given here already split at the
    commas and the arrow of the subscripts string. A label is the code
    point of its character; numpy accepts letters only. The refusals
    are numpy's: no operand, a subscript that is not a letter, a number
    of subscripts that differs from the operand's rank, two extents for
    one label within an operand, extents of one label in two operands
    that differ and are both other than one, an output label that is
    repeated or occurs in no operand. As numpy does, an axis of extent
    one gives way to the extent another operand has for its label, and
    the operand is then read at index zero along that axis. *)

Definition isalpha (c : nat) : bool :=
  bool_decide (65 <= c <= 90 \/ 97 <= c <= 122)%nat.

Definition extents : Type := list (nat * nat).

Fixpoint lookup_label (l : nat) (env : list (nat * nat)) : option nat :=
  match env with
  | [] => None
  | (l', n) :: env' => if decide (l = l') then Some n else lookup_label l env'
  end.

(** Record the extent of every label of one operand; a label that the
    operand repeats must have the same extent each time. *)
Fixpoint operand_extents (env : extents) (ls s : list nat) : result extents :=
  match ls, s with
  | [], [] => Ok env
  | l :: ls', n :: s' =>
      if negb (isalpha l) then
        Raise (ValueError "invalid subscript in einstein sum subscripts string")
      else
        match lookup_label l env with
        | Some m =>
            if decide (m = n) then operand_extents env ls' s'
            else Raise (ValueError "dimensions in operand for collapsing index don't match")
        | None => operand_extents (env ++ [(l, n)]) ls' s'
        end
  | _, _ =>
      Raise (ValueError "operand has a different number of dimensions than subscripts")
  end.

(** The extent of a label that two operands carry: the common one, or
    the other one when one of them is one. *)
Definition broadcast (m n : nat) : option nat :=
  if decide (m = n) then Some m
  else if decide (m = 1)%nat then Some n
  else if decide (n = 1)%nat then Some m
  else None.

Definition set_extent (l k : nat) (env : extents) : extents :=
  (fun ln : nat * nat => if decide (ln.1 = l) then (l, k) else ln) <$> env.

(** Bring the extents of one operand into those of the operands before it. *)
Fixpoint merge_extents (env own : extents) : result extents :=
  match own with
  | [] => Ok env
  | (l, n) :: own' =>
      match lookup_label l env with
      | None => merge_extents (env ++ [(l, n)]) own'
      | Some m =>
          match broadcast m n with
          | Some k => merge_extents (set_extent l k env) own'
          | None => Raise (ValueError "operands could not be broadcast together")
          end
      end
  end.

Fixpoint output_extents (env : extents) (seen out : list nat) : result (list nat) :=
  match out with
  | [] => Ok []
  | l :: out' =>
      if bool_decide (l ∈ seen) then
        Raise (ValueError "einstein sum subscripts string includes output subscript multiple times")
      else
        match lookup_label l env with
        | None =>
            Raise (ValueError "einstein sum subscripts string included output subscript which never appeared in an input")
        | Some n => s ← output_extents env (l :: seen) out'; Ok (n :: s)
        end
  end.

(** All assignments of indices to the labels of [env]. *)
Fixpoint assignments (env : extents) : list (list (nat * nat)) :=
  match env with
  | [] => [[]]
  | (l, n) :: env' => i ← seq 0 n; (fun a => (l, i) :: a) <$> assignments env'
  end.

(** The element of an operand under an assignment of its labels; along
    an axis of extent one the operand has its one element to give. *)
Definition operand_item (a : list (nat * nat)) (op : list nat * ndarray) : Q :=
  item op.2
    (zip_with (fun l n => if decide (n = 1)%nat then 0%nat
                          else default 0%nat (lookup_label l a))
       op.1 (shape op.2)).

Definition einsum (operands : list (list nat * ndarray)) (out : list nat) : result ndarray :=
  match operands with
  | [] => Raise (ValueError "must provide at least an operand")
  | _ =>
      env ← foldM (fun env op =>
                     own ← operand_extents [] op.1 (shape op.2); merge_extents env own)
              [] operands;
      s ← output_extents env [] out;
      let summed := filter (fun ln => ln.1 ∉ out) env in
      Ok (fromfunction s (fun k =>
            Qsum ((fun a => Qprod (operand_item (zip out k ++ a) <$> operands))
                    <$> assignments summed)))
  end.

End np.

Import np.

(** ** The directed graph ([graph.py]) *)

(** What [addProbabilityTable] attaches to a vertex: the three
    attributes are assigned together and never removed. *)
Record attributes : Type := {
  probability : ndarray;
  states : list string;
  dependencyList : list string
}.

(** A vertex. [neighbors] is a Python set of vertexes, which hash and
    compare by name. A vertex without [attached] attributes has none of
    [probability], [states], [dependencyList]. *)
Record _Vertex : Type := {
  name : string;
  neighbors : gset string;
  attached : option attributes
}.

(** [_Vertex(name)] *)
Definition _Vertex__init__ (nm : string) : _Vertex :=
  {| name := nm; neighbors := ∅; attached := None |}.

(** Reading an attribute that was never assigned raises. *)
Definition getattr {A : Type} (v : _Vertex) (attr : string) (f : attributes -> A) : result A :=
  match attached v with
  | Some a => Ok (f a)
  | None => Raise (AttributeError attr)
  end.

(** The network object. [_vertexes] is the dict of vertexes by name, in
    insertion order, which is the order [vertexes()] iterates in; every
    vertex is stored under its own name. [_edges] is the dict of edges by
    (parent name, child name), here with the weight of each. *)
Record BayesianNet : Type := {
  _vertexes : list _Vertex;
  _edges : gmap (string * string) Z;
  evidenceList : list (string * string)
}.

Definition set_vertexes (vs : list _Vertex) (g : BayesianNet) : BayesianNet :=
  {| _vertexes := vs; _edges := _edges g; evidenceList := evidenceList g |}.

Definition set_evidenceList (ev : list (string * string)) (g : BayesianNet) : BayesianNet :=
  {| _vertexes := _vertexes g; _edges := _edges g; evidenceList := ev |}.

(** [self._vertexes[vName]] *)
Fixpoint dict_getitem (vs : list _Vertex) (vName : string) : result _Vertex :=
  match vs with
  | [] => Raise (KeyError vName)
  | v :: vs' => if decide (name v = vName) then Ok v else dict_getitem vs' vName
  end.

(** Assignment to the attributes of the vertex object stored under [vName]. *)
Fixpoint dict_update (vs : list _Vertex) (vName : string) (f : _Vertex -> _Vertex) : list _Vertex :=
  match vs with
  | [] => []
  | v :: vs' =>
      if decide (name v = vName) then f v :: vs' else v :: dict_update vs' vName f
  end.

Definition vertexes (g : BayesianNet) : list _Vertex := _vertexes g.

Definition vertexObject (g : BayesianNet) (vName : string) : result _Vertex :=
  dict_getitem (_vertexes g) vName.

Definition addVertex (nm : string) (g : BayesianNet) : BayesianNet :=
  if bool_decide (nm ∈ name <$> _vertexes g) then g
  else set_vertexes (_vertexes g ++ [_Vertex__init__ nm]) g.

Definition add_neighbor (c : string) (p : _Vertex) : _Vertex :=
  {| name := name p; neighbors := neighbors p ∪ {[c]}; attached := attached p |}.

Definition addEdge (pName cName : string) (weight : Z) (g : BayesianNet) : BayesianNet :=
  if bool_decide ((pName, cName) ∈ dom (_edges g)) then g
  else
    let g := addVertex cName (addVertex pName g) in
    {| _vertexes := dict_update (_vertexes g) pName (add_neighbor cName);
       _edges := <[(pName, cName) := weight]> (_edges g);
       evidenceList := evidenceList g |}.

(** ** The Bayesian network ([bayesian.py]) *)

(** [BayesianNet(vertexes, edges)] *)
Definition __init__ (vs : list string) (es : list (string * string * Z)) : BayesianNet :=
  let g := {| _vertexes := []; _edges := ∅; evidenceList := [] |} in
  let g := foldl (fun g v => addVertex v g) g vs in
  foldl (fun g e => addEdge e.1.1 e.1.2 e.2 g) g es.

Definition addNode (nName : string) (g : BayesianNet) : BayesianNet :=
  addVertex nName g.

Definition addChild (pName cName : string) (g : BayesianNet) : BayesianNet :=
  addEdge pName cName 1 g.

Definition getParents (g : BayesianNet) (uName : string) : result (list _Vertex) :=
  u ← vertexObject g uName;
  Ok (filter (fun v => name u ∈ neighbors v) (vertexes g)).

(** The outcome of a method that assigns to the network and returns
    nothing: the exception it raised, if any, what it printed, and the
    network it left behind. *)
Record call : Type := {
  raised : option exn;
  printed : list string;
  self : BayesianNet
}.

Definition addProbabilityTable (uName : string) (probability : ndarray)
    (states : list string) (dependencyList : option (list string))
    (g : BayesianNet) : call :=
  let dependencyList := default [] dependencyList in
  let shape := shape probability in
  let raise e := {| raised := Some e; printed := []; self := g |} in
  match shape with
  | [] => raise (IndexError "tuple index out of range")
  | shape0 :: _ =>
      if decide (shape0 ≠ length states) then raise (ValueError "Incorrect states")
      else
        match getParents g uName with
        | Raise e => raise e
        | Ok parents =>
            if decide (length shape ≠ length parents + 1) then
              raise (ValueError "Incorrect dimensions for conditional/marginal probability")
            else if decide (length shape ≠ length dependencyList + 1) then
              raise (ValueError "Incorrect dependency list")
            else
              let a := {| probability := probability; states := states;
                          dependencyList := dependencyList |} in
              let attach u :=
                {| name := name u; neighbors := neighbors u; attached := Some a |} in
              {| raised := None; printed := [];
                 self := set_vertexes (dict_update (_vertexes g) uName attach) g |}
        end
  end.

(** [{ v.name: chr( i + 97 ) for i, v in enumerate( self.vertexes( ) ) }];
    a label is kept as its code point, and [ord] of it is the code point
    again. The keys are distinct, as the names of a dict's vertexes are.
    The end of Python's code points, which [chr] refuses to pass, lies
    beyond a million vertexes and is left out. *)
Definition indexDict (g : BayesianNet) : list (string * nat) :=
  imap (fun i v => (name v, i + 97)) (vertexes g).

(** [indexDict[k]] *)
Fixpoint indexDict_getitem (d : list (string * nat)) (k : string) : result nat :=
  match d with
  | [] => Raise (KeyError k)
  | (k', l) :: d' => if decide (k' = k) then Ok l else indexDict_getitem d' k
  end.

(** [states.index(vState)] *)
Fixpoint list_index (l : list string) (x : string) : result nat :=
  match l with
  | [] => Raise (ValueError "is not in list")
  | y :: l' => if decide (y = x) then Ok 0 else S <$> list_index l' x
  end.

(** [dimList[i] = x] *)
Definition list_setitem {A : Type} (l : list A) (i : nat) (x : A) : result (list A) :=
  if decide (i < length l) then Ok (<[i := x]> l)
  else Raise (IndexError "list assignment index out of range").

(** The subscripts of one operand: the vertex's own label, then the
    labels of its declared dependencies. *)
Definition lhsTerm (indexDict : list (string * nat)) (u : _Vertex) : result (list nat) :=
  l ← indexDict_getitem indexDict (name u);
  deps ← getattr u "dependencyList" dependencyList;
  ls ← traverse (indexDict_getitem indexDict) deps;
  Ok (l :: ls).

(** One turn of the loop over the evidence list. *)
Definition clamp (g : BayesianNet) (indexDict : list (string * nat))
    (dimList : list index) (ev : string * string) : result (list index) :=
  let '(vName, vState) := ev in
  l ← indexDict_getitem indexDict vName;
  let vIndex := l - 97 in
  v ← vertexObject g vName;
  sts ← getattr v "states" states;
  i ← list_index sts vState;
  list_setitem dimList vIndex (int i).

(** The vertexes a call of [jointProbability] works on: the argument is
    replaced by all vertexes when it is [None] or evidence is set. *)
Definition queried (g : BayesianNet) (vertexList : option (list _Vertex)) : list _Vertex :=
  match vertexList with
  | Some l => if decide (evidenceList g = []) then l else vertexes g
  | None => vertexes g
  end.

(** The raw joint: the tables of [vertexList] contracted to one array
    with one axis per vertex of [vertexList]. *)
Definition contraction (g : BayesianNet) (vertexList : list _Vertex) : result ndarray :=
  probList ← traverse (fun v => getattr v "probability" probability) vertexList;
  let indexDict := indexDict g in
  rhs ← traverse (fun v => indexDict_getitem indexDict (name v)) vertexList;
  lhsList ← traverse (lhsTerm indexDict) vertexList;
  einsum (zip lhsList probList) rhs.

(** The index tuple built from the evidence list. *)
Definition evidence_dimList (g : BayesianNet) (jointProb : ndarray) : result (list index) :=
  foldM (clamp g (indexDict g)) (replicate (ndim jointProb) slice_None) (evidenceList g).

Definition jointProbability (g : BayesianNet) (vertexList : option (list _Vertex))
    : result ndarray :=
  let vertexList := queried g vertexList in
  jointProb ← contraction g vertexList;
  let jointProb := divide jointProb (sum jointProb) in
  if decide (evidenceList g = []) then Ok jointProb
  else
    dimList ← evidence_dimList g jointProb;
    slicedProb ← getitem jointProb dimList;
    Ok (divide slicedProb (sum slicedProb)).

Definition marginalProbability (g : BayesianNet) (uName : string) (total : bool)
    : result ndarray :=
  u ← vertexObject g uName;
  deps ← getattr u "dependencyList" dependencyList;
  if decide (deps = [] /\ evidenceList g = []) then getattr u "probability" probability
  else
    let total := if decide (evidenceList g = []) then total else true in
    vertexList ←
      (if total then Ok (vertexes g)
       else vs ← traverse (vertexObject g) deps; Ok (u :: vs));
    jointProb ← jointProbability g (Some vertexList);
    let indexDict := indexDict g in
    let setVertexes := fst <$> evidenceList g in
    lhs ← traverse (fun v => indexDict_getitem indexDict (name v))
          (filter (fun v => name v ∉ setVertexes) vertexList);
    rhs ← indexDict_getitem indexDict uName;
    einsum [(lhs, jointProb)] [rhs].

(** What the loop of [setEvidence] does with the entries: go on to the
    assignment, return early after printing, or raise. *)
Inductive validation : Type :=
  | valid
  | invalid_node
  | failed (e : exn).

Fixpoint validate (g : BayesianNet) (evidenceList : list (string * string)) : validation :=
  match evidenceList with
  | [] => valid
  | (vName, vState) :: rest =>
      match vertexObject g vName with
      | Raise (KeyError _) => invalid_node
      | Raise e => failed e
      | Ok v =>
          match getattr v "states" states with
          | Raise e => failed e
          | Ok sts =>
              if bool_decide (vState ∈ sts) then validate g rest
              else failed (ValueError "Invalid state for node specified")
          end
      end
  end.

Definition setEvidence (evidenceList : list (string * string)) (g : BayesianNet) : call :=
  match validate g evidenceList with
  | valid => {| raised := None; printed := []; self := set_evidenceList evidenceList g |}
  | invalid_node => {| raised := None; printed := ["Invalid node specified"]; self := g |}
  | failed e => {| raised := Some e; printed := []; self := g |}
  end.

Definition unsetEvidence (g : BayesianNet) : call :=
  {| raised := None; printed := []; self := set_evidenceList [] g |}.

(** [getInference] returns a state label or a distribution. *)
Inductive inference : Type :=
  | state (vState : string)
  | distribution (p : ndarray).

Fixpoint first_evidence (uName : string) (evidenceList : list (string * string)) : option string :=
  match evidenceList with
  | [] => None
  | (vName, vState) :: rest =>
      if decide (uName = vName) then Some vState else first_evidence uName rest
  end.

Definition getInference (g : BayesianNet) (uName : string) : result inference :=
  match first_evidence uName (evidenceList g) with
  | Some vState => Ok (state vState)
  | None => distribution <$> marginalProbability g uName true
  end.

(** ** Notions used in the statements *)

(** A call of [setEvidence] succeeded when it neither raised nor
    reported an invalid node. *)
Definition succeeded (c : call) : Prop := raised c = None /\ printed c = [].

(** The node named by an entry exists and has a table attached. *)
Definition known_entry (g : BayesianNet) (e : string * string) : Prop :=
  exists v a, vertexObject g e.1 = Ok v /\ attached v = Some a.

(** An entry validates: its node exists, has a table attached, and the
    state is one of the node's states. *)
Definition valid_entry (g : BayesianNet) (e : string * string) : Prop :=
  exists v a, vertexObject g e.1 = Ok v /\ attached v = Some a /\ e.2 ∈ states a.

(** The networks a client can build: from the empty network, by the
    methods that assign to it. [BayesianNet(vertexes, edges)], [addNode]
    and [addChild] are compositions of these. *)
Inductive reachable : BayesianNet -> Prop :=
  | reachable_empty :
      reachable {| _vertexes := []; _edges := ∅; evidenceList := [] |}
  | reachable_addVertex g nm :
      reachable g -> reachable (addVertex nm g)
  | reachable_addEdge g pName cName weight :
      reachable g -> reachable (addEdge pName cName weight g)
  | reachable_addProbabilityTable g uName probability states dependencyList :
      reachable g ->
      reachable (self (addProbabilityTable uName probability states dependencyList g))
  | reachable_setEvidence g evidence :
      reachable g -> reachable (self (setEvidence evidence g))
  | reachable_unsetEvidence g :
      reachable g -> reachable (self (unsetEvidence g)).

(** The vertexes that have [v] among their neighbors: its parents. *)
Definition parents_of (vs : list _Vertex) (v : _Vertex) : list _Vertex :=
  filter (fun w => name v ∈ neighbors w) vs.

(** A vertex with a table declares no more dependencies than it has
    parents in the graph. *)
Definition dependencies_bounded (g : BayesianNet) : Prop :=
  forall v a, v ∈ vertexes g -> attached v = Some a ->
    length (dependencyList a) <= length (parents_of (vertexes g) v).

(** The dict of edges and the neighbor sets say the same. *)
Definition edges_are_neighbors (g : BayesianNet) : Prop :=
  forall pName cName,
    (pName, cName) ∈ dom (_edges g) <->
    exists p, p ∈ vertexes g /\ name p = pName /\ cName ∈ neighbors p.

(** Both ends of an edge are vertexes. *)
Definition edges_have_ends (g : BayesianNet) : Prop :=
  forall pName cName,
    (pName, cName) ∈ dom (_edges g) ->
    pName ∈ name <$> vertexes g /\ cName ∈ name <$> vertexes g.

(** The first dimension of a table is the number of states of its node
    and the other dimensions are as many as the declared dependencies. *)
Definition table_fits (a : attributes) : Prop :=
  exists rest, shape (probability a) = length (states a) :: rest /\
    length rest = length (dependencyList a).

(** The dimensions of a table after the first are those of its
    dependencies, in the order of the dependency list: each dependency
    is a node with a table, and the dimension is the number of its
    states. [addProbabilityTable] does not check this; its docstring
    asks it of the caller. *)
Definition extents_agree (g : BayesianNet) : Prop :=
  forall v a j d, v ∈ vertexes g -> attached v = Some a ->
    dependencyList a !! j = Some d ->
    exists w b, vertexObject g d = Ok w /\ attached w = Some b /\
      shape (probability a) !! S j = Some (length (states b)).

(** The number of states of the node that a label stands for. *)
Definition label_extent (g : BayesianNet) (l : nat) : nat :=
  match vertexes g !! (l - 97) with
  | Some v => match attached v with Some a => length (states a) | None => 0 end
  | None => 0
  end.

(** A function of assignments that looks at them through [lookup_label] only. *)
Definition by_lookup (F : list (nat * nat) -> Q) : Prop :=
  forall b b', (forall l, lookup_label l b = lookup_label l b') -> (F b == F b')%Q.

(** ** The networks of the repository's test script *)

Module Examples.

Definition chain_graph : BayesianNet :=
  addChild "Smoking" "Cancer" (addNode "Smoking" (__init__ [] [])).

Definition P_Smoking : ndarray := array [3] [0.8; 0.15; 0.05]%Q.

Definition P_Cancer : ndarray :=
  array [3; 3] [0.96; 0.88; 0.60;
                0.03; 0.08; 0.25;
                0.01; 0.04; 0.15]%Q.

(** Only [Smoking] has its table. *)
Definition chain_partial : BayesianNet :=
  self (addProbabilityTable "Smoking" P_Smoking ["None"; "Light"; "Heavy"] None chain_graph).

Definition chain : BayesianNet :=
  self (addProbabilityTable "Cancer" P_Cancer ["None"; "Benign"; "Malignant"]
          (Some ["Smoking"]) chain_partial).

Definition sprinkler_graph : BayesianNet :=
  let b := addNode "cloudy" (__init__ [] []) in
  let b := addChild "cloudy" "sprinkler" b in
  let b := addChild "cloudy" "rain" b in
  let b := addChild "sprinkler" "grass wet" b in
  addChild "rain" "grass wet" b.

Definition sprinkler : BayesianNet :=
  let b := sprinkler_graph in
  let b := self (addProbabilityTable "cloudy" (array [2] [0.5; 0.5]%Q) ["T"; "F"] None b) in
  let b := self (addProbabilityTable "sprinkler" (array [2; 2] [0.1; 0.5; 0.9; 0.5]%Q)
                   ["T"; "F"] (Some ["cloudy"]) b) in
  let b := self (addProbabilityTable "rain" (array [2; 2] [0.8; 0.2; 0.2; 0.8]%Q)
                   ["T"; "F"] (Some ["cloudy"]) b) in
  self (addProbabilityTable "grass wet"
          (array [2; 2; 2] [0.99; 0.9; 0.9; 0; 0.01; 0.1; 0.1; 1]%Q)
          ["T"; "F"] (Some ["sprinkler"; "rain"]) b).

End Examples.

(** A network of twenty-seven nodes with one state each. *)
Definition wide_names : list string :=
  ["n00"; "n01"; "n02"; "n03"; "n04"; "n05"; "n06"; "n07"; "n08"; "n09"; "n10"; "n11"; "n12"; "n13"; "n14"; "n15"; "n16"; "n17"; "n18"; "n19"; "n20"; "n21"; "n22"; "n23"; "n24"; "n25"; "n26"].

Definition wide : BayesianNet :=
  foldl (fun g nm => self (addProbabilityTable nm (array [1] [1]%Q) ["on"] None g))
    (__init__ wide_names []) wide_names.

(** A network of two nodes: the parent has one state, and the table of
    the child is two by two, by zero in [empty_axis], where the
    dependency has one state only. *)
Definition empty_axis : BayesianNet :=
  let b := addChild "P" "C" (addNode "P" (__init__ [] [])) in
  let b := self (addProbabilityTable "P" (array [1] [1]%Q) ["on"] None b) in
  self (addProbabilityTable "C" (array [2; 0] []) ["T"; "F"] (Some ["P"]) b).

Definition stretched : BayesianNet :=
  let b := addChild "P" "C" (addNode "P" (__init__ [] [])) in
  let b := self (addProbabilityTable "P" (array [1] [1]%Q) ["on"] None b) in
  self (addProbabilityTable "C" (array [2; 2] [0.9; 0.2; 0.1; 0.8]%Q) ["T"; "F"]
          (Some ["P"]) b).

(** * Properties *)

(** ** The result monad and the loops *)

Lemma bind_Ok {A B : Type} (r : result A) (f : A -> result B) (b : B) :
  r ≫= f = Ok b -> exists a, r = Ok a /\ f a = Ok b.
Proof. destruct r as [a|e]; [eauto | discriminate]. Qed.

Lemma bind_Ok_l {A B : Type} (a : A) (f : A -> result B) : Ok a ≫= f = f a.
Proof. done. Qed.

Lemma traverse_Raise {A B : Type} (f : A -> result B) (l : list A) (x : A) (e : exn) :
  x ∈ l ->
  (forall y, y ∈ l -> forall e', f y = Raise e' -> e' = e) ->
  f x = Raise e ->
  traverse f l = Raise e.
Proof.
  induction l as [|y l IH]; intros Hin Hall Hx.
  - by apply elem_of_nil in Hin.
  - cbn. destruct (f y) as [b|e'] eqn:Hy.
    + apply elem_of_cons in Hin as [->|Hin]; [congruence|].
      cbn. rewrite IH; [done | done | | done].
      intros z Hz. apply Hall. by right.
    + cbn. f_equal. eapply Hall; [by left | done].
Qed.

Lemma traverse_length {A B : Type} (f : A -> result B) (l : list A) (l' : list B) :
  traverse f l = Ok l' -> length l' = length l.
Proof.
  revert l'. induction l as [|x l IH]; intros l' H; cbn in H.
  - by inversion H.
  - apply bind_Ok in H as (y & _ & H). apply bind_Ok in H as (ys & Hys & H).
    inversion H; subst. cbn. f_equal. by apply IH.
Qed.

(** ** Looking a vertex up *)

Lemma dict_getitem_Raise (vs : list _Vertex) (vName : string) (e : exn) :
  dict_getitem vs vName = Raise e -> e = KeyError vName /\ vName ∉ name <$> vs.
Proof.
  induction vs as [|v vs IH]; cbn.
  - intros [= <-]. split; [done | apply not_elem_of_nil].
  - destruct (decide (name v = vName)) as [|Hne]; [done|].
    intros H. apply IH in H as [-> Hnin]. split; [done|].
    apply not_elem_of_cons. by split.
Qed.

Lemma dict_getitem_Ok (vs : list _Vertex) (vName : string) (v : _Vertex) :
  dict_getitem vs vName = Ok v -> v ∈ vs /\ name v = vName.
Proof.
  induction vs as [|w vs IH]; cbn; [done|].
  destruct (decide (name w = vName)) as [Heq|Hne].
  - intros [= ->]. split; [by left | done].
  - intros H. apply IH in H as [Hin Hn]. split; [by right | done].
Qed.

Lemma dict_getitem_missing (vs : list _Vertex) (vName : string) :
  vName ∉ name <$> vs -> dict_getitem vs vName = Raise (KeyError vName).
Proof.
  intros Hnin. destruct (dict_getitem vs vName) as [v|e] eqn:H.
  - apply dict_getitem_Ok in H as [Hin <-]. exfalso. apply Hnin.
    by apply list_elem_of_fmap_2.
  - by apply dict_getitem_Raise in H as [-> _].
Qed.

(** ** Evidence and the inference query *)

Lemma first_evidence_app (uName vState : string) (pre post : list (string * string)) :
  uName ∉ pre.*1 ->
  first_evidence uName (pre ++ (uName, vState) :: post) = Some vState.
Proof.
  induction pre as [|[n s] pre IH]; intros Hpre; cbn.
  - by rewrite decide_True.
  - cbn in Hpre. apply not_elem_of_cons in Hpre as [Hne Hpre].
    rewrite decide_False by done. by apply IH.
Qed.

Lemma first_evidence_None (uName : string) (ev : list (string * string)) :
  first_evidence uName ev = None <-> uName ∉ ev.*1.
Proof.
  induction ev as [|[n s] ev IH]; cbn.
  - split; [intros _; apply not_elem_of_nil | done].
  - destruct (decide (uName = n)) as [->|Hne].
    + split; [done|]. intros H. exfalso. apply H. by left.
    + rewrite IH. rewrite not_elem_of_cons. tauto.
Qed.

Lemma first_evidence_Some (uName vState : string) (ev : list (string * string)) :
  first_evidence uName ev = Some vState -> (uName, vState) ∈ ev.
Proof.
  induction ev as [|[n s] ev IH]; cbn; [done|].
  destruct (decide (uName = n)) as [->|Hne].
  - intros [= ->]. by left.
  - intros H. right. by apply IH.
Qed.

Lemma setEvidence_succeeded (ev : list (string * string)) (g : BayesianNet) :
  succeeded (setEvidence ev g) ->
  validate g ev = valid /\ self (setEvidence ev g) = set_evidenceList ev g.
Proof.
  unfold succeeded, setEvidence.
  destruct (validate g ev); cbn; intros [H1 H2]; [done | discriminate H2 | discriminate H1].
Qed.

(** C3. [getInference(name)] returns the clamped state label of [name]
    when the evidence list has an entry for it, and the marginal of
    [name] over the full network otherwise; after a successful
    [setEvidence([(n, s)])] it returns exactly [s]. *)
Theorem getInference_spec (g : BayesianNet) (uName : string) :
  (uName ∈ (evidenceList g).*1 ->
     exists vState, (uName, vState) ∈ evidenceList g /\
       getInference g uName = Ok (state vState)) /\
  (uName ∉ (evidenceList g).*1 ->
     getInference g uName = distribution <$> marginalProbability g uName true) /\
  (forall vState, succeeded (setEvidence [(uName, vState)] g) ->
     getInference (self (setEvidence [(uName, vState)] g)) uName = Ok (state vState)).
Proof.
  unfold getInference. split; [|split].
  - intros Hin. destruct (first_evidence uName (evidenceList g)) as [s|] eqn:Hf.
    + exists s. split; [by apply first_evidence_Some | done].
    + by apply first_evidence_None in Hf.
  - intros Hnin. apply first_evidence_None in Hnin. by rewrite Hnin.
  - intros vState Hok. apply setEvidence_succeeded in Hok as [_ ->]. cbn.
    by rewrite decide_True.
Qed.

(** C10. When several entries of the evidence list name the same node,
    [getInference] returns the state of the first of them. *)
Theorem getInference_first_entry (g : BayesianNet) (uName vState : string)
    (pre post : list (string * string)) :
  evidenceList g = pre ++ (uName, vState) :: post ->
  uName ∉ pre.*1 ->
  getInference g uName = Ok (state vState).
Proof.
  intros Hev Hpre. unfold getInference. rewrite Hev. by rewrite first_evidence_app.
Qed.

Lemma getInference_spec_witness :
  let g := self (setEvidence [("Smoking", "Light")] Examples.chain) in
  (exists vState, ("Smoking", vState) ∈ evidenceList g /\
     getInference g "Smoking" = Ok (state vState)) /\
  getInference g "Cancer" = distribution <$> marginalProbability g "Cancer" true /\
  getInference (self (setEvidence [("Cancer", "Benign")] Examples.chain)) "Cancer"
    = Ok (state "Benign").
Proof.
  intros g.
  split; [|split].
  - apply (getInference_spec g "Smoking"). vm_compute. left.
  - apply (getInference_spec g "Cancer"). vm_compute.
    intros H. apply list_elem_of_In in H. cbn in H. destruct H as [H|[]]. discriminate H.
  - apply (getInference_spec Examples.chain "Cancer"). split; reflexivity.
Defined.

Lemma getInference_first_entry_witness :
  let g := set_evidenceList [("Smoking", "Light"); ("Cancer", "None"); ("Cancer", "Benign")]
             Examples.chain in
  getInference g "Cancer" = Ok (state "None").
Proof.
  intros g.
  apply (getInference_first_entry g "Cancer" "None"
           [("Smoking", "Light")] [("Cancer", "Benign")]).
  - reflexivity.
  - cbn. intros H. apply list_elem_of_In in H. cbn in H. destruct H as [H|[]]. discriminate H.
Defined.

(** ** Attaching a probability table *)

(** C6. A table whose first dimension differs from the number of state
    labels is refused with the error of message [Incorrect states], and
    the network, hence the table, states and dependency list attached to
    the node before, stays as it was. The same holds when the rank of
    the table minus one differs from the number of parents of the node
    in the graph, and when it differs from the length of the dependency
    list. *)
Theorem addProbabilityTable_refused (g : BayesianNet) (uName : string)
    (probability : ndarray) (states : list string)
    (dependencyList : option (list string)) (shape0 : nat) (rest : list nat) :
  shape probability = shape0 :: rest ->
  (shape0 ≠ length states ->
     addProbabilityTable uName probability states dependencyList g
     = {| raised := Some (ValueError "Incorrect states"); printed := []; self := g |}) /\
  (forall parents,
     shape0 = length states ->
     getParents g uName = Ok parents ->
     length rest ≠ length parents ->
     addProbabilityTable uName probability states dependencyList g
     = {| raised := Some (ValueError "Incorrect dimensions for conditional/marginal probability");
          printed := []; self := g |}) /\
  (forall parents,
     shape0 = length states ->
     getParents g uName = Ok parents ->
     length rest = length parents ->
     length rest ≠ length (default [] dependencyList) ->
     addProbabilityTable uName probability states dependencyList g
     = {| raised := Some (ValueError "Incorrect dependency list");
          printed := []; self := g |}).
Proof.
  intros Hshape. unfold addProbabilityTable. rewrite Hshape.
  split; [|split].
  - intros Hne. by rewrite decide_True.
  - intros parents Heq Hpar Hne.
    rewrite decide_False by (intros H; by apply H).
    rewrite Hpar. rewrite decide_True; [done|]. cbn. lia.
  - intros parents Heq Hpar Hrank Hne.
    rewrite decide_False by (intros H; by apply H).
    rewrite Hpar. rewrite decide_False by (cbn; lia).
    rewrite decide_True; [done|]. cbn. lia.
Qed.

Lemma addProbabilityTable_refused_witness :
  let g := Examples.chain in
  let refused msg := {| raised := Some (ValueError msg); printed := []; self := g |} in
  addProbabilityTable "Cancer" (array [2; 3] [1; 0; 0; 0; 1; 1]%Q)
    ["None"; "Benign"; "Malignant"] (Some ["Smoking"]) g
  = refused "Incorrect states" /\
  addProbabilityTable "Cancer" Examples.P_Smoking
    ["None"; "Benign"; "Malignant"] (Some ["Smoking"]) g
  = refused "Incorrect dimensions for conditional/marginal probability" /\
  addProbabilityTable "Cancer" Examples.P_Cancer
    ["None"; "Benign"; "Malignant"] None g
  = refused "Incorrect dependency list".
Proof.
  intros g refused. split; [|split].
  - apply (addProbabilityTable_refused g "Cancer" _ _ _ 2 [3]); [reflexivity|].
    cbn. lia.
  - destruct (addProbabilityTable_refused g "Cancer" Examples.P_Smoking
                ["None"; "Benign"; "Malignant"] (Some ["Smoking"]) 3 [] eq_refl)
      as (_ & H & _).
    eapply H; [reflexivity | vm_compute; reflexivity | cbn; lia].
  - destruct (addProbabilityTable_refused g "Cancer" Examples.P_Cancer
                ["None"; "Benign"; "Malignant"] None 3 [3] eq_refl)
      as (_ & _ & H).
    eapply H; [reflexivity | vm_compute; reflexivity | reflexivity | cbn; lia].
Defined.

(** ** Queries on a network with a missing table *)

Lemma getattr_Raise {A : Type} (v : _Vertex) (attr : string) (f : attributes -> A) (e : exn) :
  getattr v attr f = Raise e -> e = AttributeError attr.
Proof. unfold getattr. destruct (attached v); congruence. Qed.

(** C7. When a vertex among those the call works on has no table
    attached, [jointProbability] raises the attribute error of the
    missing [probability]; it returns no array. *)
Theorem jointProbability_missing_table (g : BayesianNet)
    (vertexList : option (list _Vertex)) (v : _Vertex) :
  v ∈ queried g vertexList ->
  attached v = None ->
  jointProbability g vertexList = Raise (AttributeError "probability").
Proof.
  intros Hin Hv. unfold jointProbability, contraction.
  rewrite (traverse_Raise (fun v => getattr v "probability" probability)
             _ v (AttributeError "probability")).
  - reflexivity.
  - exact Hin.
  - intros y _ e' He'. by apply getattr_Raise in He'.
  - unfold getattr. by rewrite Hv.
Qed.

Lemma jointProbability_missing_table_witness :
  jointProbability Examples.chain_partial None = Raise (AttributeError "probability").
Proof.
  eapply (jointProbability_missing_table Examples.chain_partial None).
  - vm_compute. right. left.
  - reflexivity.
Defined.

(** ** Marginals *)

(** *** Dependencies and parents in the networks a client can build *)

Lemma elem_of_dict_update (vs : list _Vertex) (vName : string) (f : _Vertex -> _Vertex)
    (v' : _Vertex) :
  v' ∈ dict_update vs vName f ->
  v' ∈ vs \/ exists v, v ∈ vs /\ name v = vName /\ v' = f v.
Proof.
  induction vs as [|w vs IH]; cbn; [by left|].
  destruct (decide (name w = vName)) as [Heq|Hne]; intros Hin.
  - apply elem_of_cons in Hin as [->|Hin].
    + right. exists w. split; [by left | done].
    + left. by right.
  - apply elem_of_cons in Hin as [->|Hin]; [left; by left|].
    destruct (IH Hin) as [?|(v & Hv & Hn & ->)]; [left; by right|].
    right. exists v. split; [by right | done].
Qed.

Lemma filter_dict_update_length (P : _Vertex -> Prop) `{!forall v, Decision (P v)}
    (vs : list _Vertex) (vName : string) (f : _Vertex -> _Vertex) :
  (forall v, P v -> P (f v)) ->
  length (filter P vs) <= length (filter P (dict_update vs vName f)).
Proof.
  intros Hf. induction vs as [|w vs IH]; cbn [dict_update]; [done|].
  destruct (decide (name w = vName)) as [Heq|Hne].
  - rewrite !filter_cons. destruct (decide (P w)) as [Hw|Hw].
    + rewrite decide_True by by apply Hf. done.
    + destruct (decide (P (f w))); cbn [length]; lia.
  - rewrite !filter_cons. destruct (decide (P w)); cbn [length]; lia.
Qed.

Lemma dependencies_bounded_update (g : BayesianNet) (vName : string) (f : _Vertex -> _Vertex)
    (es : gmap (string * string) Z) (ev : list (string * string)) :
  dependencies_bounded g ->
  (forall v, name (f v) = name v /\ neighbors v ⊆ neighbors (f v)) ->
  (forall v a, v ∈ vertexes g -> name v = vName -> attached (f v) = Some a ->
     length (dependencyList a) <= length (parents_of (vertexes g) v)) ->
  dependencies_bounded
    {| _vertexes := dict_update (_vertexes g) vName f; _edges := es; evidenceList := ev |}.
Proof.
  intros Hinv Hf Hnew v' a Hin Ha. unfold vertexes in *. cbn in *.
  assert (Hmono : forall v, name v' = name v ->
            length (parents_of (_vertexes g) v)
            <= length (parents_of (dict_update (_vertexes g) vName f) v')).
  { intros v Hn. unfold parents_of. rewrite Hn.
    apply filter_dict_update_length. intros w Hw. by apply (Hf w). }
  apply elem_of_dict_update in Hin as [Hin|(v & Hin & Hn & ->)].
  - etrans; [by apply Hinv | by apply Hmono].
  - etrans; [by apply Hnew | apply Hmono, Hf].
Qed.

Lemma dependencies_bounded_ext (g g' : BayesianNet) :
  vertexes g' = vertexes g -> dependencies_bounded g -> dependencies_bounded g'.
Proof. unfold dependencies_bounded. by intros ->. Qed.

Lemma dependencies_bounded_addVertex (g : BayesianNet) (nm : string) :
  dependencies_bounded g -> dependencies_bounded (addVertex nm g).
Proof.
  intros Hinv. unfold addVertex. case_bool_decide; [done|].
  intros v a Hin Ha. unfold vertexes in *. cbn in *.
  apply elem_of_app in Hin as [Hin|Hin].
  - unfold parents_of. rewrite filter_app, length_app.
    specialize (Hinv v a Hin Ha). unfold parents_of, vertexes in Hinv. lia.
  - apply list_elem_of_singleton in Hin as ->. done.
Qed.

Lemma dependencies_bounded_addEdge (g : BayesianNet) (pName cName : string) (weight : Z) :
  dependencies_bounded g -> dependencies_bounded (addEdge pName cName weight g).
Proof.
  intros Hinv. unfold addEdge. case_bool_decide; [done|].
  apply dependencies_bounded_update.
  - by do 2 apply dependencies_bounded_addVertex.
  - intros v. split; [done|]. cbn. set_solver.
  - intros v a Hin _ Ha. by apply (dependencies_bounded_addVertex _ _
      (dependencies_bounded_addVertex _ _ Hinv)).
Qed.

Lemma getParents_Ok (g : BayesianNet) (uName : string) (parents : list _Vertex) :
  getParents g uName = Ok parents ->
  exists u, vertexObject g uName = Ok u /\ parents = parents_of (vertexes g) u.
Proof.
  unfold getParents. intros H. apply bind_Ok in H as (u & Hu & [= <-]). by exists u.
Qed.

Lemma dependencies_bounded_addProbabilityTable (g : BayesianNet) (uName : string)
    (probability : ndarray) (states : list string) (dependencyList : option (list string)) :
  dependencies_bounded g ->
  dependencies_bounded (self (addProbabilityTable uName probability states dependencyList g)).
Proof.
  intros Hinv. unfold addProbabilityTable.
  destruct (shape probability) as [|shape0 rest]; [done|].
  destruct (decide (shape0 ≠ length states)); [done|].
  destruct (getParents g uName) as [parents|e] eqn:Hpar; [|done].
  destruct (decide (length (shape0 :: rest) ≠ length parents + 1)) as [|Hrank]; [done|].
  destruct (decide (length (shape0 :: rest) ≠ length (default [] dependencyList) + 1))
    as [|Hdeps]; [done|].
  apply getParents_Ok in Hpar as (u & Hu & ->).
  unfold vertexObject in Hu.
  cbn [self]. unfold set_vertexes. apply dependencies_bounded_update; [done | done |].
  intros v a Hin Hn [= <-]. cbn.
  assert (length (default [] dependencyList) = length (parents_of (vertexes g) u)) as ->.
  { apply dec_stable in Hrank. apply dec_stable in Hdeps. lia. }
  apply dict_getitem_Ok in Hu as [_ Hu]. unfold parents_of. by rewrite Hn, Hu.
Qed.

Lemma reachable_dependencies_bounded (g : BayesianNet) :
  reachable g -> dependencies_bounded g.
Proof.
  induction 1 as [|g nm _ IH|g p c w _ IH|g u P st deps _ IH|g ev _ IH|g _ IH].
  - intros v a Hin. by apply elem_of_nil in Hin.
  - by apply dependencies_bounded_addVertex.
  - by apply dependencies_bounded_addEdge.
  - by apply dependencies_bounded_addProbabilityTable.
  - eapply dependencies_bounded_ext; [|exact IH].
    unfold setEvidence. by destruct (validate g ev).
  - by eapply dependencies_bounded_ext; [|exact IH].
Qed.

Lemma reachable__init__ (vs : list string) (es : list (string * string * Z)) :
  reachable (__init__ vs es).
Proof.
  unfold __init__.
  assert (H : forall g, reachable g -> reachable (foldl (fun g v => addVertex v g) g vs)).
  { induction vs as [|v vs IH]; intros g Hg; [done|]. cbn. apply IH. by constructor. }
  assert (H' : forall g, reachable g ->
            reachable (foldl (fun g e => addEdge e.1.1 e.1.2 e.2 g) g es)).
  { induction es as [|e es IH]; intros g Hg; [done|]. cbn. apply IH. by constructor. }
  apply H', H. constructor.
Qed.

(** C8. With an empty evidence list, the marginal of a node that has a
    table and no parents is that table itself: the array that was
    attached, not a contraction of it. The node has no parents when its
    dependency list is empty, which is what the code tests, and also
    when, in a network built through the methods of the class, no
    vertex has it as a neighbor. *)
Theorem marginalProbability_no_parents (g : BayesianNet) (uName : string) (total : bool)
    (u : _Vertex) (a : attributes) :
  vertexObject g uName = Ok u ->
  attached u = Some a ->
  evidenceList g = [] ->
  dependencyList a = [] \/ (reachable g /\ getParents g uName = Ok []) ->
  marginalProbability g uName total = Ok (probability a).
Proof.
  intros Hu Ha Hev Hcase.
  assert (Hdeps : dependencyList a = []).
  { destruct Hcase as [Hdeps|[Hg Hpar]]; [done|].
    apply getParents_Ok in Hpar as (u' & Hu' & Hnil).
    rewrite Hu in Hu'. injection Hu' as <-.
    apply reachable_dependencies_bounded in Hg.
    unfold vertexObject in Hu. apply dict_getitem_Ok in Hu as [Hin _].
    specialize (Hg u a Hin Ha). rewrite <- Hnil in Hg.
    destruct (dependencyList a); [done | cbn in Hg; lia]. }
  unfold marginalProbability. rewrite Hu, bind_Ok_l.
  unfold getattr. rewrite Ha, bind_Ok_l. by rewrite decide_True.
Qed.

Lemma marginalProbability_no_parents_witness :
  marginalProbability Examples.chain "Smoking" true = Ok Examples.P_Smoking /\
  marginalProbability Examples.sprinkler "cloudy" false = Ok (array [2] [0.5; 0.5]%Q).
Proof.
  split.
  - eapply (marginalProbability_no_parents Examples.chain "Smoking" true _
              {| probability := Examples.P_Smoking; states := ["None"; "Light"; "Heavy"];
                 dependencyList := [] |}).
    + vm_compute. reflexivity.
    + reflexivity.
    + reflexivity.
    + left. reflexivity.
  - eapply (marginalProbability_no_parents Examples.sprinkler "cloudy" false _
              {| probability := array [2] [0.5; 0.5]%Q; states := ["T"; "F"];
                 dependencyList := [] |}).
    + vm_compute. reflexivity.
    + reflexivity.
    + reflexivity.
    + right. split; [|vm_compute; reflexivity].
      unfold Examples.sprinkler, Examples.sprinkler_graph, addChild, addNode.
      repeat first [ apply reachable_addProbabilityTable | apply reachable_addEdge
                   | apply reachable_addVertex | apply reachable__init__ ].
Defined.

(** ** Clearing the evidence *)

Lemma unsetEvidence_setEvidence (ev : list (string * string)) (g : BayesianNet) :
  evidenceList g = [] ->
  self (unsetEvidence (self (setEvidence ev g))) = g.
Proof.
  intros Hev. destruct g as [vs es ev0]. cbn in Hev. subst ev0.
  unfold setEvidence. by destruct (validate _ ev).
Qed.

Lemma unsetEvidence_after_setEvidence (ev : list (string * string)) (g : BayesianNet) :
  self (unsetEvidence (self (setEvidence ev g))) = self (unsetEvidence g).
Proof. unfold setEvidence. by destruct (validate g ev). Qed.

(** C9. [unsetEvidence] empties the evidence list, whatever it held and
    without raising. On a network without evidence, [setEvidence]
    followed by [unsetEvidence] gives back the network it started from,
    so the marginal of every node is the one it had before the evidence
    was set. On any network, the marginals after the two calls are those
    of the network with its evidence cleared. *)
Theorem unsetEvidence_restores (g : BayesianNet) (ev : list (string * string)) :
  (raised (unsetEvidence g) = None /\ evidenceList (self (unsetEvidence g)) = []) /\
  (evidenceList g = [] ->
     forall (uName : string) (total : bool),
       marginalProbability (self (unsetEvidence (self (setEvidence ev g)))) uName total
       = marginalProbability g uName total) /\
  (forall (uName : string) (total : bool),
     marginalProbability (self (unsetEvidence (self (setEvidence ev g)))) uName total
     = marginalProbability (self (unsetEvidence g)) uName total).
Proof.
  split; [done|]. split.
  - intros Hev uName total. by rewrite unsetEvidence_setEvidence.
  - intros uName total. by rewrite unsetEvidence_after_setEvidence.
Qed.

Lemma unsetEvidence_restores_witness :
  let g := Examples.sprinkler in
  let g' := self (unsetEvidence (self (setEvidence [("rain", "T")] g))) in
  evidenceList (self (setEvidence [("rain", "T")] g)) = [("rain", "T")] /\
  marginalProbability g' "grass wet" true = marginalProbability g "grass wet" true.
Proof.
  intros g g'. split; [reflexivity|].
  destruct (unsetEvidence_restores g [("rain", "T")]) as (_ & H & _).
  apply H. reflexivity.
Defined.

(** ** Setting the evidence *)

Lemma validate_valid_app (g : BayesianNet) (pre rest : list (string * string)) :
  Forall (valid_entry g) pre -> validate g (pre ++ rest) = validate g rest.
Proof.
  induction 1 as [|[n s] pre (v & a & Hv & Ha & Hs) _ IH]; [done|].
  cbn in *. rewrite Hv. unfold getattr. rewrite Ha.
  by rewrite bool_decide_eq_true_2.
Qed.

Lemma validate_invalid_state (g : BayesianNet) (pre post : list (string * string))
    (vName vState : string) (v : _Vertex) (a : attributes) :
  Forall (known_entry g) pre ->
  vertexObject g vName = Ok v ->
  attached v = Some a ->
  vState ∉ states a ->
  validate g (pre ++ (vName, vState) :: post)
  = failed (ValueError "Invalid state for node specified").
Proof.
  intros Hpre Hv Ha Hs.
  induction Hpre as [|[n s] pre (w & b & Hw & Hb) _ IH]; cbn in *.
  - rewrite Hv. unfold getattr. rewrite Ha. by rewrite bool_decide_eq_false_2.
  - rewrite Hw. unfold getattr. rewrite Hb. by destruct (bool_decide (s ∈ states b)).
Qed.

(** C5, as the code has it. The entries are validated one after the
    other, name first and state second. When the first entry that does
    not validate names no node, the call prints its message, raises
    nothing and leaves the network as it was. When all entries up to
    one name nodes with a table and the state of that one is not among
    its node's states, the call raises the error of message
    [Invalid state for node specified] and leaves the network as it was.
    When all entries validate, the evidence list becomes the given list
    and nothing else changes. *)
Theorem setEvidence_spec (g : BayesianNet) (evidence : list (string * string)) :
  (forall pre vName vState post,
     evidence = pre ++ (vName, vState) :: post ->
     Forall (valid_entry g) pre ->
     vName ∉ name <$> vertexes g ->
     setEvidence evidence g
     = {| raised := None; printed := ["Invalid node specified"]; self := g |}) /\
  (forall pre vName vState post v a,
     evidence = pre ++ (vName, vState) :: post ->
     Forall (known_entry g) pre ->
     vertexObject g vName = Ok v ->
     attached v = Some a ->
     vState ∉ states a ->
     setEvidence evidence g
     = {| raised := Some (ValueError "Invalid state for node specified");
          printed := []; self := g |}) /\
  (Forall (valid_entry g) evidence ->
     setEvidence evidence g
     = {| raised := None; printed := []; self := set_evidenceList evidence g |}).
Proof.
  unfold setEvidence. split; [|split].
  - intros pre vName vState post -> Hpre Hnin.
    rewrite validate_valid_app by done. cbn.
    unfold vertexObject. by rewrite dict_getitem_missing.
  - intros pre vName vState post v a -> Hpre Hv Ha Hs.
    by rewrite (validate_invalid_state g pre post vName vState v a).
  - intros Hall. rewrite <- (app_nil_r evidence).
    rewrite validate_valid_app by done. by rewrite app_nil_r.
Qed.

Lemma setEvidence_spec_witness :
  let g := Examples.chain in
  setEvidence [("Smoking", "Light"); ("Nobody", "Light")] g
  = {| raised := None; printed := ["Invalid node specified"]; self := g |} /\
  setEvidence [("Smoking", "Purple"); ("Cancer", "Red")] g
  = {| raised := Some (ValueError "Invalid state for node specified");
       printed := []; self := g |} /\
  setEvidence [("Smoking", "Light")] g
  = {| raised := None; printed := [];
       self := set_evidenceList [("Smoking", "Light")] g |}.
Proof.
  intros g.
  assert (Hvalid : Forall (valid_entry g) [("Smoking", "Light")]).
  { constructor; [|constructor].
    eexists _, _. split; [vm_compute; reflexivity|]. split; [reflexivity|].
    cbn. right. left. }
  split; [|split].
  - destruct (setEvidence_spec g [("Smoking", "Light"); ("Nobody", "Light")]) as (H & _ & _).
    apply (H [("Smoking", "Light")] "Nobody" "Light" []); [reflexivity | exact Hvalid |].
    vm_compute. intros Hin. apply list_elem_of_In in Hin. cbn in Hin.
    destruct Hin as [Hin|[Hin|[]]]; discriminate Hin.
  - destruct (setEvidence_spec g [("Smoking", "Purple"); ("Cancer", "Red")]) as (_ & H & _).
    eapply (H [("Smoking", "Purple")] "Cancer" "Red" []).
    + reflexivity.
    + constructor; [|constructor].
      eexists _, _. split; [vm_compute; reflexivity | reflexivity].
    + vm_compute. reflexivity.
    + reflexivity.
    + cbn. intros Hin. apply list_elem_of_In in Hin. cbn in Hin.
      destruct Hin as [Hin|[Hin|[Hin|[]]]]; discriminate Hin.
  - destruct (setEvidence_spec g [("Smoking", "Light")]) as (_ & _ & H).
    apply H. exact Hvalid.
Defined.

(** C5 as the specification words it does not hold: an entry that names
    no node does not make the call return quietly when an entry before
    it carries an invalid state. *)
Lemma setEvidence_unknown_name_counterexample :
  let g := Examples.chain in
  let evidence := [("Smoking", "Purple"); ("Nobody", "Light")] in
  ~ ((exists e, e ∈ evidence /\ e.1 ∉ name <$> vertexes g) ->
     raised (setEvidence evidence g) = None /\ self (setEvidence evidence g) = g).
Proof.
  intros g evidence H. destruct H as [H _].
  - exists ("Nobody", "Light"). split; [right; left|].
    vm_compute. intros Hin. apply list_elem_of_In in Hin. cbn in Hin.
    destruct Hin as [Hin|[Hin|[]]]; discriminate Hin.
  - vm_compute in H. discriminate H.
Qed.

(** ** Normalization *)






(** ** Arrays: multi-indices and selections *)

Lemma bind_blocks_length {A : Type} (F : nat -> list A) (m a n : nat) :
  (forall i, length (F i) = m) ->
  length (seq a n ≫= F) = n * m.
Proof.
  intros HF. revert a. induction n as [|n IH]; intros a; cbn; [done|].
  rewrite length_app, HF. f_equal. apply IH.
Qed.

Lemma bind_blocks_lookup {A : Type} (F : nat -> list A) (m a n i j : nat) :
  (forall i, length (F i) = m) ->
  i < n -> j < m ->
  (seq a n ≫= F) !! (i * m + j) = F (a + i) !! j.
Proof.
  intros HF. revert a i. induction n as [|n IH]; intros a i Hi Hj; [lia|].
  cbn. destruct i as [|i]; cbn.
  - rewrite lookup_app_l by (rewrite HF; lia). by rewrite Nat.add_0_r.
  - rewrite lookup_app_r by (rewrite HF; lia). rewrite HF.
    replace (m + i * m + j - m) with (i * m + j) by lia.
    rewrite IH by lia. by replace (S a + i) with (a + S i) by lia.
Qed.

Lemma length_ndindex (s : list nat) : length (ndindex s) = size s.
Proof.
  induction s as [|n s IH]; [done|]. cbn.
  rewrite (bind_blocks_length _ (size s)); [done|].
  intros i. by rewrite length_fmap.
Qed.

Lemma elem_of_ndindex_cons (n : nat) (s k : list nat) :
  k ∈ ndindex (n :: s) <-> exists i k', k = i :: k' /\ i < n /\ k' ∈ ndindex s.
Proof.
  cbn. rewrite list_elem_of_bind. split.
  - intros (i & Hk & Hi). apply list_elem_of_fmap in Hk as (k' & -> & Hk').
    apply elem_of_seq in Hi. exists i, k'. split; [done|]. split; [lia | done].
  - intros (i & k' & -> & Hi & Hk'). exists i. split.
    + by apply list_elem_of_fmap_2.
    + apply elem_of_seq. lia.
Qed.

(** A multi-index sits in the enumeration at its row-major offset. *)
Lemma ndindex_lookup_ravel (s k : list nat) :
  k ∈ ndindex s -> ndindex s !! ravel s k = Some k.
Proof.
  revert k. induction s as [|n s IH]; intros k Hk.
  - cbn in Hk. apply list_elem_of_singleton in Hk as ->. done.
  - apply elem_of_ndindex_cons in Hk as (i & k' & -> & Hi & Hk').
    specialize (IH k' Hk'). pose proof (lookup_lt_Some _ _ _ IH) as Hlt.
    rewrite length_ndindex in Hlt. cbn.
    rewrite (bind_blocks_lookup _ (size s)); [| | done | done].
    + rewrite list_lookup_fmap, IH. done.
    + intros j. by rewrite length_fmap, length_ndindex.
Qed.

Lemma item_fromfunction (s : list nat) (f : list nat -> Q) (k : list nat) :
  k ∈ ndindex s -> item (fromfunction s f) k = f k.
Proof.
  intros Hk. unfold item, fromfunction. cbn.
  rewrite nth_lookup, list_lookup_fmap, ndindex_lookup_ravel by done. done.
Qed.

Lemma getitem_shape_kept (s : list nat) (ix : list index) :
  length ix = length s ->
  getitem_shape s ix = (filter (fun p => p.1 = slice_None) (zip ix s)).*2.
Proof.
  revert ix. induction s as [|n s IH]; intros [|[|i] ix] Hlen; try done.
  - cbn [zip zip_with getitem_shape]. rewrite filter_cons_True by done.
    cbn. f_equal. apply IH. cbn in Hlen. lia.
  - cbn [zip zip_with getitem_shape]. rewrite filter_cons_False by done.
    apply IH. cbn in Hlen. lia.
Qed.

(** What a successful selection holds: the axes indexed by a slice, in
    order, and at each of its multi-indices the element of the indexed
    array at the multi-index completed by the integers of the tuple. *)
Lemma getitem_Ok (a b : ndarray) (ix : list index) :
  getitem a ix = Ok b ->
  shape b = getitem_shape (shape a) ix /\
  forall k, k ∈ ndindex (shape b) -> item b k = item a (getitem_source ix k).
Proof.
  unfold getitem. intros H. apply bind_Ok in H as (_ & _ & [= <-]).
  split; [done|]. intros k Hk. cbn in Hk. by rewrite item_fromfunction.
Qed.

Lemma output_extents_length (env : extents) (seen out s : list nat) :
  output_extents env seen out = Ok s -> length s = length out.
Proof.
  revert seen s. induction out as [|l out IH]; intros seen s; cbn.
  - by intros [= <-].
  - destruct (bool_decide (l ∈ seen)); [done|].
    destruct (lookup_label l env); [|done].
    intros H. apply bind_Ok in H as (s' & Hs' & [= <-]). cbn. f_equal. by eapply IH.
Qed.

Lemma einsum_ndim (operands : list (list nat * ndarray)) (out : list nat) (a : ndarray) :
  einsum operands out = Ok a -> ndim a = length out.
Proof.
  unfold einsum. destruct operands as [|op operands]; [done|].
  intros H. apply bind_Ok in H as (env & _ & H). apply bind_Ok in H as (s & Hs & [= <-]).
  unfold ndim. cbn. by eapply output_extents_length.
Qed.

Lemma contraction_ndim (g : BayesianNet) (vertexList : list _Vertex) (a : ndarray) :
  contraction g vertexList = Ok a -> ndim a = length vertexList.
Proof.
  unfold contraction. intros H.
  apply bind_Ok in H as (probList & _ & H). apply bind_Ok in H as (rhs & Hrhs & H).
  apply bind_Ok in H as (lhsList & _ & H).
  apply einsum_ndim in H. rewrite H. by eapply traverse_length.
Qed.

(** ** Labels and axes *)

(** The label of a name is [chr(i + 97)] for the position [i] at which
    [vertexObject] finds the vertex of that name. *)
Lemma indexDict_getitem_imap (vs : list _Vertex) (k : nat) (vName : string) (l : nat) :
  indexDict_getitem (imap (fun i v => (name v, k + i + 97)) vs) vName = Ok l ->
  exists i v, l = k + i + 97 /\ vs !! i = Some v /\ dict_getitem vs vName = Ok v.
Proof.
  revert k. induction vs as [|w vs IH]; intros k; [done|].
  rewrite imap_cons. cbn. destruct (decide (name w = vName)) as [Heq|Hne].
  - intros [= <-]. exists 0, w. done.
  - rewrite (imap_ext _ (fun i v => (name v, S k + i + 97))).
    + intros H. apply IH in H as (i & v & -> & Hi & Hv).
      exists (S i), v. split; [lia | done].
    + intros i x _. cbn. do 2 f_equal. lia.
Qed.

Lemma indexDict_getitem_Ok (g : BayesianNet) (vName : string) (l : nat) :
  indexDict_getitem (indexDict g) vName = Ok l ->
  exists i v, l = i + 97 /\ vertexes g !! i = Some v /\ vertexObject g vName = Ok v.
Proof. apply (indexDict_getitem_imap (vertexes g) 0). Qed.

Lemma indexDict_getitem_name (g : BayesianNet) (i : nat) (v : _Vertex) (vName : string) :
  vertexes g !! i = Some v ->
  indexDict_getitem (indexDict g) vName = Ok (i + 97) ->
  name v = vName.
Proof.
  intros Hi H. apply indexDict_getitem_Ok in H as (j & w & Hj & Hw & Hv).
  assert (j = i) as -> by lia. unfold vertexObject in Hv.
  apply dict_getitem_Ok in Hv as [_ <-]. congruence.
Qed.

Section evidence_axes.

Context (g : BayesianNet).

Lemma clamp_Ok (dimList dimList' : list index) (vName vState : string) :
  clamp g (indexDict g) dimList (vName, vState) = Ok dimList' ->
  exists i v a j,
    indexDict_getitem (indexDict g) vName = Ok (i + 97) /\
    vertexes g !! i = Some v /\ vertexObject g vName = Ok v /\
    attached v = Some a /\ list_index (states a) vState = Ok j /\
    i < length dimList /\ dimList' = <[i := int j]> dimList.
Proof.
  unfold clamp. intros H.
  apply bind_Ok in H as (l & Hl & H).
  destruct (indexDict_getitem_Ok g vName l Hl) as (i & v & -> & Hi & Hv).
  rewrite Hv in H. cbn in H. unfold getattr in H.
  destruct (attached v) as [a|] eqn:Ha; [|done]. cbn in H.
  apply bind_Ok in H as (j & Hj & H). unfold list_setitem in H.
  replace (i + 97 - 97) with i in H by lia.
  destruct (decide (i < length dimList)); [|done]. injection H as <-.
  exists i, v, a, j. done.
Qed.

(** The loop over the evidence list keeps the length of the index
    tuple, leaves alone the axes that no entry names, and sets the axis
    of a name to the index of the state of the last entry naming it. *)
Lemma foldM_clamp_Ok (evidence : list (string * string)) (dimList dimList' : list index) :
  foldM (clamp g (indexDict g)) dimList evidence = Ok dimList' ->
  length dimList' = length dimList /\
  (forall i v, vertexes g !! i = Some v -> name v ∉ evidence.*1 ->
     dimList' !! i = dimList !! i) /\
  (forall pre vName vState post,
     evidence = pre ++ (vName, vState) :: post -> vName ∉ post.*1 ->
     exists i v a j,
       indexDict_getitem (indexDict g) vName = Ok (i + 97) /\
       vertexes g !! i = Some v /\ vertexObject g vName = Ok v /\
       attached v = Some a /\ list_index (states a) vState = Ok j /\
       dimList' !! i = Some (int j)).
Proof.
  revert dimList. induction evidence as [|[n s] evidence IH]; intros dimList H.
  - injection H as <-. split; [done|]. split; [done|].
    intros [|? pre] ? ? ? Heq; discriminate Heq.
  - cbn in H. apply bind_Ok in H as (dimList1 & H1 & H).
    apply clamp_Ok in H1 as (i & v & a & j & Hl & Hi & Hv & Ha & Hj & Hlt & ->).
    apply IH in H as (Hlen & Hkeep & Hset). rewrite length_insert in Hlen.
    split; [done|]. split.
    + intros i' v' Hi' Hnin. cbn in Hnin. apply not_elem_of_cons in Hnin as [Hne Hnin].
      rewrite (Hkeep i' v') by done. apply list_lookup_insert_ne.
      intros ->. apply Hne. by eapply indexDict_getitem_name.
    + intros [|[n' s'] pre] vName vState post Heq Hpost.
      * injection Heq as -> -> ->. exists i, v, a, j.
        repeat (split; [done|]).
        rewrite (Hkeep i v) by (done || by rewrite (indexDict_getitem_name g i v vName)).
        by apply list_lookup_insert_eq.
      * injection Heq as -> -> ->. by eapply Hset.
Qed.

End evidence_axes.

(** ** The joint distribution under evidence *)

Lemma queried_evidence (g : BayesianNet) (vertexList : option (list _Vertex)) :
  evidenceList g ≠ [] -> queried g vertexList = vertexes g.
Proof.
  intros Hev. unfold queried. destruct vertexList; [|done]. by rewrite decide_False.
Qed.








(** ** The marginal over the full network *)

Lemma jointProbability_all (g : BayesianNet) :
  jointProbability g (Some (vertexes g)) = jointProbability g None.
Proof.
  unfold jointProbability, queried. by destruct (decide (evidenceList g = [])).
Qed.

Lemma traverse_Ok {A B : Type} (f : A -> result B) (l : list A) :
  (forall x, x ∈ l -> exists y, f x = Ok y) ->
  exists ys, traverse f l = Ok ys /\ Forall2 (fun x y => f x = Ok y) l ys.
Proof.
  induction l as [|x l IH]; intros Hall.
  - exists []. split; [done | constructor].
  - destruct (Hall x) as [y Hy]; [by left|].
    destruct IH as (ys & Hys & HF); [intros z Hz; apply Hall; by right|].
    exists (y :: ys). cbn. rewrite Hy. cbn. rewrite Hys. cbn.
    split; [done | by constructor].
Qed.

(** Every vertex of the network has a label. *)
Lemma indexDict_getitem_total (vs : list _Vertex) (k : nat) (v : _Vertex) :
  v ∈ vs ->
  exists l, indexDict_getitem (imap (fun i v => (name v, k + i + 97)) vs) (name v) = Ok l.
Proof.
  revert k. induction vs as [|w vs IH]; intros k Hin.
  - by apply elem_of_nil in Hin.
  - rewrite imap_cons. cbn. destruct (decide (name w = name v)) as [Heq|Hne]; [by eexists|].
    apply elem_of_cons in Hin as [->|Hin]; [done|].
    rewrite (imap_ext _ (fun i v => (name v, S k + i + 97))).
    + by apply IH.
    + intros i x _. cbn. do 2 f_equal. lia.
Qed.

(** C2. When evidence is set, or the full network is asked for and the
    fast path does not apply, [marginalProbability(name)] is the joint
    of the full network contracted once more: the subscripts of the
    operand are the labels of the nodes that no evidence entry names,
    in the order of the network, and the output subscript is the label
    of [name] alone. When no evidence entry names [name], those labels
    exist and the label of [name] is one of the operand's subscripts;
    a marginal that is returned has one axis. *)
Theorem marginalProbability_total (g : BayesianNet) (uName : string) (total : bool)
    (u : _Vertex) (a : attributes) :
  vertexObject g uName = Ok u ->
  attached u = Some a ->
  evidenceList g ≠ [] \/ (total = true /\ dependencyList a ≠ []) ->
  marginalProbability g uName total
  = (jointProb ← jointProbability g None;
     lhs ← traverse (fun v => indexDict_getitem (indexDict g) (name v))
           (filter (fun v => name v ∉ (evidenceList g).*1) (vertexes g));
     rhs ← indexDict_getitem (indexDict g) uName;
     einsum [(lhs, jointProb)] [rhs]) /\
  (uName ∉ (evidenceList g).*1 ->
     exists lhs rhs,
       traverse (fun v => indexDict_getitem (indexDict g) (name v))
         (filter (fun v => name v ∉ (evidenceList g).*1) (vertexes g)) = Ok lhs /\
       indexDict_getitem (indexDict g) uName = Ok rhs /\
       rhs ∈ lhs /\
       marginalProbability g uName total
       = (jointProb ← jointProbability g None; einsum [(lhs, jointProb)] [rhs])) /\
  (forall p, marginalProbability g uName total = Ok p -> ndim p = 1).
Proof.
  intros Hu Ha Hcase.
  assert (Heq : marginalProbability g uName total
    = (jointProb ← jointProbability g None;
       lhs ← traverse (fun v => indexDict_getitem (indexDict g) (name v))
             (filter (fun v => name v ∉ (evidenceList g).*1) (vertexes g));
       rhs ← indexDict_getitem (indexDict g) uName;
       einsum [(lhs, jointProb)] [rhs])).
  { unfold marginalProbability. rewrite Hu, bind_Ok_l.
    unfold getattr. rewrite Ha, bind_Ok_l.
    rewrite decide_False by (intros [Hd He]; destruct Hcase as [?|[_ ?]]; done).
    assert ((if decide (evidenceList g = []) then total else true) = true) as ->.
    { destruct (decide (evidenceList g = [])); [|done].
      by destruct Hcase as [?|[? _]]. }
    by rewrite bind_Ok_l, jointProbability_all. }
  split; [exact Heq|]. split.
  - intros Hnin.
    destruct (traverse_Ok (fun v => indexDict_getitem (indexDict g) (name v))
                (filter (fun v => name v ∉ (evidenceList g).*1) (vertexes g)))
      as (lhs & Hlhs & HF).
    { intros v Hv. apply list_elem_of_filter in Hv as [_ Hv].
      by apply (indexDict_getitem_total (vertexes g) 0). }
    unfold vertexObject in Hu. apply dict_getitem_Ok in Hu as [Hin Hname].
    destruct (indexDict_getitem_total (vertexes g) 0 u Hin) as [rhs Hrhs].
    rewrite Hname in Hrhs. exists lhs, rhs.
    split; [done|]. split; [done|]. split.
    + assert (Hu' : u ∈ filter (fun v => name v ∉ (evidenceList g).*1) (vertexes g)).
      { apply list_elem_of_filter. split; [by rewrite Hname | done]. }
      apply list_elem_of_lookup in Hu' as [i Hi].
      destruct (Forall2_lookup_l _ _ _ _ _ HF Hi) as (l & Hl & Hul).
      rewrite Hname in Hul. change (indexDict g) with (imap (fun i v => (name v, 0 + i + 97)) (vertexes g)) in Hul.
      rewrite Hrhs in Hul. injection Hul as <-.
      apply list_elem_of_lookup. by exists i.
    + rewrite Heq. destruct (jointProbability g None); [|done]. cbn.
      rewrite Hlhs. cbn.
      change (indexDict g) with (imap (fun i v => (name v, 0 + i + 97)) (vertexes g)).
      by rewrite Hrhs.
  - intros p Hp. rewrite Heq in Hp.
    apply bind_Ok in Hp as (jointProb & _ & Hp). apply bind_Ok in Hp as (lhs & _ & Hp).
    apply bind_Ok in Hp as (rhs & _ & Hp). by apply einsum_ndim in Hp.
Qed.

Lemma marginalProbability_total_witness :
  let g := self (setEvidence [("rain", "T")] Examples.sprinkler) in
  marginalProbability g "grass wet" false
  = (jointProb ← jointProbability g None; einsum [([97; 98; 100], jointProb)] [100]) /\
  marginalProbability Examples.sprinkler "grass wet" true
  = (jointProb ← jointProbability Examples.sprinkler None;
     einsum [([97; 98; 99; 100], jointProb)] [100]).
Proof.
  intros g. split.
  - edestruct (marginalProbability_total g "grass wet" false) as (_ & H & _).
    + vm_compute. reflexivity.
    + reflexivity.
    + left. vm_compute. discriminate.
    + destruct H as (lhs & rhs & Hlhs & Hrhs & _ & ->).
      * vm_compute. intros Hin. apply list_elem_of_In in Hin. cbn in Hin.
        destruct Hin as [Hin|[]]. discriminate Hin.
      * vm_compute in Hlhs. vm_compute in Hrhs.
        injection Hlhs as <-. injection Hrhs as <-. reflexivity.
  - edestruct (marginalProbability_total Examples.sprinkler "grass wet" true) as (_ & H & _).
    + vm_compute. reflexivity.
    + reflexivity.
    + right. split; [reflexivity|]. vm_compute. discriminate.
    + destruct H as (lhs & rhs & Hlhs & Hrhs & _ & ->).
      * vm_compute. intros Hin. apply list_elem_of_In in Hin. destruct Hin.
      * vm_compute in Hlhs. vm_compute in Hrhs.
        injection Hlhs as <-. injection Hrhs as <-. reflexivity.
Defined.

(** ** The chain network of the test script *)

(** The marginal of [Cancer] is the sum over the states of [Smoking] of
    the table of [Cancer] weighted by the marginal of [Smoking]. *)
Example chain_marginal_Cancer :
  exists p, marginalProbability Examples.chain "Cancer" true = Ok p /\
    shape p = [3] /\ Forall2 Qeq (data p) [0.93; 0.0485; 0.0215]%Q.
Proof.
  eexists. split; [vm_compute; reflexivity|]. split; [reflexivity|].
  repeat constructor.
Qed.

(** * Further properties of the graph and of the network *)

(** ** Vertexes: insertion and lookup *)

Lemma dict_getitem_app (vs ws : list _Vertex) (vName : string) :
  dict_getitem (vs ++ ws) vName
  = match dict_getitem vs vName with
    | Ok v => Ok v
    | Raise _ => dict_getitem ws vName
    end.
Proof.
  induction vs as [|v vs IH]; cbn; [done|].
  by destruct (decide (name v = vName)).
Qed.

Lemma dict_getitem_present (vs : list _Vertex) (vName : string) :
  vName ∈ name <$> vs -> exists v, dict_getitem vs vName = Ok v.
Proof.
  intros Hin. destruct (dict_getitem vs vName) as [v|e] eqn:H; [by exists v|].
  by apply dict_getitem_Raise in H as [_ Hnin].
Qed.

(** [addVertex] stores a vertex under the name and returns it: a fresh
    one, without neighbors or table, when the name is new, the one
    already there otherwise. Every vertex that was in the graph is found
    again as it was, and adding the same name twice is adding it once. *)
Theorem addVertex_spec (g : BayesianNet) (nm : string) :
  (nm ∉ name <$> vertexes g ->
     vertexObject (addVertex nm g) nm = Ok (_Vertex__init__ nm)) /\
  (forall vName v, vertexObject g vName = Ok v ->
     vertexObject (addVertex nm g) vName = Ok v) /\
  (forall vName, vName ≠ nm ->
     vertexObject (addVertex nm g) vName = vertexObject g vName) /\
  addVertex nm (addVertex nm g) = addVertex nm g.
Proof.
  unfold vertexObject, vertexes. split; [|split; [|split]].
  - intros Hnin. unfold addVertex. rewrite bool_decide_eq_false_2 by done. cbn.
    rewrite dict_getitem_app, dict_getitem_missing by done. cbn. by rewrite decide_True.
  - intros vName v Hv. unfold addVertex. case_bool_decide; [done|]. cbn.
    by rewrite dict_getitem_app, Hv.
  - intros vName Hne. unfold addVertex. case_bool_decide; [done|]. cbn.
    rewrite dict_getitem_app. destruct (dict_getitem (_vertexes g) vName) as [v|e] eqn:Hv; [done|].
    cbn. rewrite decide_False by done. by apply dict_getitem_Raise in Hv as [-> _].
  - unfold addVertex at 1. rewrite bool_decide_eq_true_2; [done|].
    unfold addVertex. case_bool_decide; [done|]. cbn.
    rewrite fmap_app. apply elem_of_app. right. cbn. by left.
Qed.

Lemma addVertex_spec_witness :
  vertexObject (addVertex "Tar" Examples.chain) "Tar" = Ok (_Vertex__init__ "Tar") /\
  vertexObject (addVertex "Smoking" Examples.chain) "Cancer"
  = vertexObject Examples.chain "Cancer".
Proof.
  split.
  - destruct (addVertex_spec Examples.chain "Tar") as (H & _). apply H. vm_compute.
    intros Hin. apply list_elem_of_In in Hin. cbn in Hin.
    destruct Hin as [Hin|[Hin|[]]]; discriminate Hin.
  - destruct (addVertex_spec Examples.chain "Smoking") as (_ & _ & H & _). apply H.
    discriminate.
Defined.

Lemma names_addVertex (g : BayesianNet) (nm : string) :
  name <$> vertexes (addVertex nm g)
  = if bool_decide (nm ∈ name <$> vertexes g) then name <$> vertexes g
    else (name <$> vertexes g) ++ [nm].
Proof.
  unfold addVertex, vertexes. case_bool_decide; [done|]. cbn. by rewrite fmap_app.
Qed.

Lemma names_dict_update (vs : list _Vertex) (vName : string) (f : _Vertex -> _Vertex) :
  (forall v, name (f v) = name v) ->
  name <$> dict_update vs vName f = name <$> vs.
Proof.
  intros Hf. induction vs as [|v vs IH]; cbn; [done|].
  destruct (decide (name v = vName)); cbn; [by rewrite Hf | by rewrite IH].
Qed.

Lemma names_addEdge (g : BayesianNet) (pName cName : string) (weight : Z) :
  name <$> vertexes (addEdge pName cName weight g)
  = if bool_decide ((pName, cName) ∈ dom (_edges g)) then name <$> vertexes g
    else name <$> vertexes (addVertex cName (addVertex pName g)).
Proof.
  unfold addEdge. case_bool_decide; [done|]. unfold vertexes at 1. cbn.
  by rewrite names_dict_update.
Qed.

Lemma names_addProbabilityTable (g : BayesianNet) (uName : string) (probability : ndarray)
    (states : list string) (dependencyList : option (list string)) :
  name <$> vertexes (self (addProbabilityTable uName probability states dependencyList g))
  = name <$> vertexes g.
Proof.
  unfold addProbabilityTable.
  destruct (shape probability) as [|shape0 rest]; [done|].
  destruct (decide (shape0 ≠ length states)); [done|].
  destruct (getParents g uName); [|done].
  repeat (case_decide; [done|]).
  unfold vertexes. cbn. by rewrite names_dict_update.
Qed.

Lemma vertexes_setEvidence (g : BayesianNet) (evidence : list (string * string)) :
  vertexes (self (setEvidence evidence g)) = vertexes g /\
  _edges (self (setEvidence evidence g)) = _edges g.
Proof. unfold setEvidence. by destruct (validate g evidence). Qed.

Lemma NoDup_names_addVertex (g : BayesianNet) (nm : string) :
  NoDup (name <$> vertexes g) -> NoDup (name <$> vertexes (addVertex nm g)).
Proof.
  intros Hnd. rewrite names_addVertex. case_bool_decide; [done|].
  apply NoDup_app. split_and!; [done | | apply NoDup_singleton].
  intros x Hx Hx'%list_elem_of_singleton. by subst x.
Qed.

Lemma NoDup_names_of_reachable (g : BayesianNet) :
  reachable g -> NoDup (name <$> vertexes g).
Proof.
  induction 1 as [|g nm _ IH|g p c w _ IH|g u P st deps _ IH|g ev _ IH|g _ IH].
  - constructor.
  - by apply NoDup_names_addVertex.
  - rewrite names_addEdge. case_bool_decide; [done|].
    by do 2 apply NoDup_names_addVertex.
  - by rewrite names_addProbabilityTable.
  - by rewrite (proj1 (vertexes_setEvidence g ev)).
  - done.
Qed.

(** In a network built through the methods of the class no two vertexes
    have the same name: the vertex list is a dict keyed by name. *)
Theorem reachable_NoDup_names (g : BayesianNet) :
  reachable g -> NoDup (name <$> vertexes g).
Proof. apply NoDup_names_of_reachable. Qed.

Lemma reachable_chain : reachable Examples.chain.
Proof.
  unfold Examples.chain, Examples.chain_partial, Examples.chain_graph, addChild, addNode.
  repeat first [ apply reachable_addProbabilityTable | apply reachable_addEdge
               | apply reachable_addVertex | apply reachable__init__ ].
Qed.

Lemma reachable_sprinkler : reachable Examples.sprinkler.
Proof.
  unfold Examples.sprinkler, Examples.sprinkler_graph, addChild, addNode.
  repeat first [ apply reachable_addProbabilityTable | apply reachable_addEdge
               | apply reachable_addVertex | apply reachable__init__ ].
Qed.

Lemma reachable_NoDup_names_witness :
  NoDup (name <$> vertexes Examples.sprinkler).
Proof. apply reachable_NoDup_names. exact reachable_sprinkler. Defined.

(** ** Edges *)

(** [addEdge] records an edge once: a pair that has its edge keeps the
    weight it was first given and the graph does not change, a new pair
    gets the given weight, and a second call for the same pair, with
    whatever weight, is without effect. *)
Theorem addEdge_once (g : BayesianNet) (pName cName : string) (weight weight' : Z) :
  (forall w, _edges g !! (pName, cName) = Some w -> addEdge pName cName weight g = g) /\
  (_edges g !! (pName, cName) = None ->
     _edges (addEdge pName cName weight g) !! (pName, cName) = Some weight) /\
  addEdge pName cName weight' (addEdge pName cName weight g) = addEdge pName cName weight g.
Proof.
  split; [|split].
  - intros w Hw. unfold addEdge. rewrite bool_decide_eq_true_2; [done|].
    apply elem_of_dom. by exists w.
  - intros Hnone. unfold addEdge. rewrite bool_decide_eq_false_2.
    + cbn. apply lookup_insert_eq.
    + by apply not_elem_of_dom.
  - unfold addEdge at 1. rewrite bool_decide_eq_true_2; [done|].
    unfold addEdge. case_bool_decide; [done|]. cbn. set_solver.
Qed.

Lemma addEdge_once_witness :
  addEdge "Smoking" "Cancer" 7 Examples.chain = Examples.chain /\
  _edges (addEdge "Cancer" "Death" 7 Examples.chain) !! ("Cancer", "Death") = Some 7%Z.
Proof.
  split.
  - destruct (addEdge_once Examples.chain "Smoking" "Cancer" 7 0) as (H & _).
    apply (H 1%Z). vm_compute. reflexivity.
  - destruct (addEdge_once Examples.chain "Cancer" "Death" 7 0) as (_ & H & _).
    apply H. vm_compute. reflexivity.
Defined.

Lemma elem_of_dict_update_keep (vs : list _Vertex) (vName : string) (f : _Vertex -> _Vertex)
    (v : _Vertex) :
  v ∈ vs -> v ∈ dict_update vs vName f \/ (name v = vName /\ f v ∈ dict_update vs vName f).
Proof.
  induction vs as [|w vs IH]; intros Hin; [by apply elem_of_nil in Hin|].
  cbn. destruct (decide (name w = vName)) as [Heq|Hne].
  - apply elem_of_cons in Hin as [->|Hin].
    + right. split; [done | by left].
    + left. by right.
  - apply elem_of_cons in Hin as [->|Hin]; [left; by left|].
    destruct (IH Hin) as [?|[? ?]]; [left; by right|]. right. split; [done | by right].
Qed.

Lemma dict_update_present (vs : list _Vertex) (vName : string) (f : _Vertex -> _Vertex) :
  vName ∈ name <$> vs ->
  exists v, v ∈ vs /\ name v = vName /\ f v ∈ dict_update vs vName f.
Proof.
  induction vs as [|w vs IH]; intros Hin; [by apply elem_of_nil in Hin|].
  cbn. destruct (decide (name w = vName)) as [Heq|Hne].
  - exists w. split; [by left|]. split; [done | by left].
  - cbn in Hin. apply elem_of_cons in Hin as [Heq|Hin]; [done|].
    destruct (IH Hin) as (v & Hv & Hn & Hf). exists v.
    split; [by right|]. split; [done | by right].
Qed.

Lemma elem_of_names_addVertex (g : BayesianNet) (nm x : string) :
  x ∈ name <$> vertexes (addVertex nm g) <-> x = nm \/ x ∈ name <$> vertexes g.
Proof.
  rewrite names_addVertex. case_bool_decide as Hin.
  - split; [by right|]. by intros [->|?].
  - rewrite elem_of_app, list_elem_of_singleton. tauto.
Qed.

Lemma edges_are_neighbors_addVertex (g : BayesianNet) (nm : string) :
  edges_are_neighbors g -> edges_are_neighbors (addVertex nm g).
Proof.
  intros Hinv pName cName. unfold addVertex. case_bool_decide; [done|].
  unfold vertexes. cbn. rewrite (Hinv pName cName). unfold vertexes. split.
  - intros (p & Hp & Hn & Hc). exists p. split; [|done]. apply elem_of_app. by left.
  - intros (p & Hp & Hn & Hc). apply elem_of_app in Hp as [Hp|Hp]; [by exists p|].
    apply list_elem_of_singleton in Hp as ->. cbn in Hc. set_solver.
Qed.

Lemma edges_are_neighbors_addEdge (g : BayesianNet) (pName cName : string) (weight : Z) :
  edges_are_neighbors g -> edges_are_neighbors (addEdge pName cName weight g).
Proof.
  intros Hinv. unfold addEdge. case_bool_decide as Hnew; [done|].
  pose proof (edges_are_neighbors_addVertex _ cName
                (edges_are_neighbors_addVertex _ pName Hinv)) as Hinv2.
  set (g2 := addVertex cName (addVertex pName g)) in *.
  assert (Hedges : _edges g2 = _edges g).
  { unfold g2, addVertex. by repeat case_bool_decide. }
  intros p' c'. unfold vertexes. cbn. rewrite dom_insert, elem_of_union, elem_of_singleton.
  split.
  - intros [[= -> ->]|Hin].
    + destruct (dict_update_present (_vertexes g2) pName (add_neighbor cName))
        as (v & _ & Hn & Hf).
      { apply elem_of_names_addVertex. right. apply elem_of_names_addVertex. by left. }
      exists (add_neighbor cName v). split; [done|]. split; [done|]. cbn. set_solver.
    + apply Hinv2 in Hin as (p & Hp & Hn & Hc).
      destruct (elem_of_dict_update_keep _ pName (add_neighbor cName) p Hp) as [?|[_ ?]].
      * by exists p.
      * exists (add_neighbor cName p). split; [done|]. split; [done|]. cbn. set_solver.
  - intros (p & Hp & Hn & Hc).
    apply elem_of_dict_update in Hp as [Hp|(v & Hv & Hvn & ->)].
    + right. apply Hinv2. by exists p.
    + cbn in Hn, Hc. apply elem_of_union in Hc as [Hc|Hc].
      * right. apply Hinv2. by exists v.
      * apply elem_of_singleton in Hc as ->. left. congruence.
Qed.

Lemma edges_are_neighbors_update (g : BayesianNet) (vName : string) (f : _Vertex -> _Vertex) :
  (forall v, name (f v) = name v /\ neighbors (f v) = neighbors v) ->
  edges_are_neighbors g ->
  edges_are_neighbors (set_vertexes (dict_update (_vertexes g) vName f) g).
Proof.
  intros Hf Hinv pName cName. unfold vertexes. cbn. rewrite (Hinv pName cName).
  unfold vertexes. split.
  - intros (p & Hp & Hn & Hc).
    destruct (elem_of_dict_update_keep _ vName f p Hp) as [?|[_ ?]]; [by exists p|].
    exists (f p). destruct (Hf p) as [-> ->]. done.
  - intros (p & Hp & Hn & Hc).
    apply elem_of_dict_update in Hp as [Hp|(v & Hv & Hvn & ->)]; [by exists p|].
    exists v. destruct (Hf v) as [Hfn Hfc]. rewrite Hfn in Hn. rewrite Hfc in Hc. done.
Qed.

Lemma self_addProbabilityTable (g : BayesianNet) (uName : string) (probability : ndarray)
    (states : list string) (dependencyList : option (list string)) :
  let g' := self (addProbabilityTable uName probability states dependencyList g) in
  g' = g \/
  exists a, g' = set_vertexes (dict_update (_vertexes g) uName
       (fun u => {| name := name u; neighbors := neighbors u; attached := Some a |})) g.
Proof.
  unfold addProbabilityTable.
  destruct (shape probability) as [|shape0 rest]; [by left|].
  destruct (decide (shape0 ≠ length states)); [by left|].
  destruct (getParents g uName); [|by left].
  repeat (case_decide; [by left|]). right. by eexists.
Qed.

Lemma reachable_edges_are_neighbors (g : BayesianNet) :
  reachable g -> edges_are_neighbors g.
Proof.
  induction 1 as [|g nm _ IH|g p c w _ IH|g u P st deps _ IH|g ev _ IH|g _ IH].
  - intros p c. cbn. rewrite dom_empty. split; [set_solver|].
    intros (v & Hv & _). by apply elem_of_nil in Hv.
  - by apply edges_are_neighbors_addVertex.
  - by apply edges_are_neighbors_addEdge.
  - destruct (self_addProbabilityTable g u P st deps) as [->|[a ->]]; [done|].
    by apply edges_are_neighbors_update.
  - destruct (vertexes_setEvidence g ev) as [Hv He].
    intros p c. rewrite Hv, He. apply IH.
  - exact IH.
Qed.

Lemma reachable_edges_have_ends (g : BayesianNet) :
  reachable g -> edges_have_ends g.
Proof.
  induction 1 as [|g nm _ IH|g p c w _ IH|g u P st deps _ IH|g ev _ IH|g _ IH].
  - intros p c. cbn. rewrite dom_empty. set_solver.
  - intros p c Hin. assert (_edges (addVertex nm g) = _edges g) as Heq.
    { unfold addVertex. by case_bool_decide. }
    rewrite Heq in Hin. apply IH in Hin as [Hp Hc].
    split; apply elem_of_names_addVertex; by right.
  - intros p' c' Hin. rewrite names_addEdge. unfold addEdge in Hin.
    case_bool_decide as Hnew; [by apply IH|].
    cbn in Hin. rewrite dom_insert, elem_of_union, elem_of_singleton in Hin.
    assert (_edges (addVertex c (addVertex p g)) = _edges g) as Heq.
    { unfold addVertex. by repeat case_bool_decide. }
    rewrite Heq in Hin. rewrite !elem_of_names_addVertex.
    destruct Hin as [[= -> ->]|Hin]; [tauto|]. apply IH in Hin. tauto.
  - intros p c Hin. rewrite names_addProbabilityTable.
    destruct (self_addProbabilityTable g u P st deps) as [Heq|[a Heq]];
      rewrite Heq in Hin; by apply IH.
  - destruct (vertexes_setEvidence g ev) as [Hv He].
    intros p c. rewrite Hv, He. apply IH.
  - exact IH.
Qed.

Lemma NoDup_names_eq (vs : list _Vertex) (v w : _Vertex) :
  NoDup (name <$> vs) -> v ∈ vs -> w ∈ vs -> name v = name w -> v = w.
Proof.
  intros Hnd Hv Hw Hn.
  apply list_elem_of_lookup in Hv as [i Hi]. apply list_elem_of_lookup in Hw as [j Hj].
  assert (i = j) as ->; [|congruence].
  eapply (NoDup_lookup _ _ _ (name v) Hnd); rewrite list_lookup_fmap.
  - by rewrite Hi.
  - by rewrite Hj, Hn.
Qed.

(** ** Parents *)

Lemma getParents_of_reachable (g : BayesianNet) (uName : string) :
  reachable g ->
  (uName ∈ name <$> vertexes g ->
     exists parents, getParents g uName = Ok parents /\ NoDup parents /\
       forall p, p ∈ parents <-> p ∈ vertexes g /\ (name p, uName) ∈ dom (_edges g)) /\
  (uName ∉ name <$> vertexes g -> getParents g uName = Raise (KeyError uName)).
Proof.
  intros Hg. split.
  - intros Hin. destruct (dict_getitem_present _ _ Hin) as [u Hu].
    unfold getParents, vertexObject. unfold vertexes in Hu. rewrite Hu, bind_Ok_l.
    apply dict_getitem_Ok in Hu as [_ Hname]. eexists. split; [done|]. split.
    + apply NoDup_filter. eapply NoDup_fmap_1. by apply NoDup_names_of_reachable.
    + intros p. rewrite list_elem_of_filter, Hname.
      pose proof (reachable_edges_are_neighbors g Hg (name p) uName) as Hinv. split.
      * intros [Hc Hp]. split; [done|]. apply Hinv. by exists p.
      * intros [Hp He]. split; [|done]. apply Hinv in He as (p' & Hp' & Hn & Hc).
        by rewrite <- (NoDup_names_eq (vertexes g) p' p (NoDup_names_of_reachable g Hg)).
  - intros Hnin. unfold getParents, vertexObject. by rewrite dict_getitem_missing.
Qed.

(** In a network built through the methods of the class, the parents
    [getParents] returns for a node are the vertexes from which an edge
    leads to it, each once; for a name that is no node it raises the
    key error. *)
Theorem getParents_spec (g : BayesianNet) (uName : string) :
  reachable g ->
  (uName ∈ name <$> vertexes g ->
     exists parents, getParents g uName = Ok parents /\ NoDup parents /\
       forall p, p ∈ parents <-> p ∈ vertexes g /\ (name p, uName) ∈ dom (_edges g)) /\
  (uName ∉ name <$> vertexes g -> getParents g uName = Raise (KeyError uName)).
Proof. apply getParents_of_reachable. Qed.

Lemma getParents_spec_witness :
  (exists parents, getParents Examples.sprinkler "grass wet" = Ok parents /\
     name <$> parents = ["sprinkler"; "rain"]) /\
  getParents Examples.sprinkler "snow" = Raise (KeyError "snow").
Proof.
  destruct (getParents_spec Examples.sprinkler "grass wet" reachable_sprinkler) as [H _].
  destruct (getParents_spec Examples.sprinkler "snow" reachable_sprinkler) as [_ H'].
  split.
  - eexists. split; [vm_compute; reflexivity | reflexivity].
  - apply H'. vm_compute. intros Hin. apply list_elem_of_In in Hin. cbn in Hin.
    destruct Hin as [Hin|[Hin|[Hin|[Hin|[]]]]]; discriminate Hin.
Defined.

(** ** Attaching a table: the accepted case *)

Lemma dict_getitem_update (vs : list _Vertex) (vName k : string) (f : _Vertex -> _Vertex) :
  (forall v, name (f v) = name v) ->
  dict_getitem (dict_update vs vName f) k
  = if decide (k = vName) then f <$> dict_getitem vs k else dict_getitem vs k.
Proof.
  intros Hf. induction vs as [|v vs IH]; cbn.
  - by destruct (decide (k = vName)).
  - destruct (decide (name v = vName)) as [Hv|Hv]; cbn.
    + rewrite Hf. destruct (decide (name v = k)) as [Hk|Hk].
      * rewrite decide_True by congruence. done.
      * destruct (decide (k = vName)) as [->|]; [done|]. done.
    + destruct (decide (name v = k)) as [Hk|Hk]; [|done].
      rewrite decide_False by congruence. done.
Qed.

(** When the three checks pass, [addProbabilityTable] raises nothing and
    gives the node the table, the states and the dependency list of the
    call, in place of any it had; the node keeps its name and neighbors,
    every other node is found as it was, and the edges and the evidence
    list are those of before. *)
Theorem addProbabilityTable_accepted (g : BayesianNet) (uName : string)
    (table : ndarray) (sts : list string)
    (deps : option (list string)) (shape0 : nat) (rest : list nat)
    (parents : list _Vertex) :
  shape table = shape0 :: rest ->
  shape0 = length sts ->
  getParents g uName = Ok parents ->
  length rest = length parents ->
  length rest = length (default [] deps) ->
  let c := addProbabilityTable uName table sts deps g in
  raised c = None /\
  (exists u, vertexObject g uName = Ok u /\
     vertexObject (self c) uName
     = Ok {| name := name u; neighbors := neighbors u;
             attached := Some {| probability := table; states := sts;
                                 dependencyList := default [] deps |} |}) /\
  (forall vName, vName ≠ uName -> vertexObject (self c) vName = vertexObject g vName) /\
  _edges (self c) = _edges g /\
  evidenceList (self c) = evidenceList g.
Proof.
  intros Hshape H0 Hpar Hrank Hdeps c. subst c. unfold addProbabilityTable.
  rewrite Hshape. rewrite decide_False by (intros H; by apply H).
  rewrite Hpar. rewrite decide_False by (intros H; apply H; cbn; lia).
  rewrite decide_False by (intros H; apply H; cbn; lia).
  cbn [raised self]. split; [done|].
  apply getParents_Ok in Hpar as (u & Hu & _).
  unfold vertexObject in *. cbn [_vertexes set_vertexes]. split; [|split; [|done]].
  - exists u. split; [done|]. rewrite dict_getitem_update by done.
    rewrite decide_True by done. by rewrite Hu.
  - intros vName Hne. rewrite dict_getitem_update by done. by rewrite decide_False.
Qed.

Lemma addProbabilityTable_accepted_witness :
  let c := addProbabilityTable "Smoking" (array [3] [0.5; 0.3; 0.2]%Q)
             ["No"; "Some"; "Much"] None Examples.chain in
  raised c = None /\
  marginalProbability (self c) "Smoking" true = Ok (array [3] [0.5; 0.3; 0.2]%Q) /\
  vertexObject (self c) "Cancer" = vertexObject Examples.chain "Cancer".
Proof.
  intros c.
  edestruct (addProbabilityTable_accepted Examples.chain "Smoking"
               (array [3] [0.5; 0.3; 0.2]%Q) ["No"; "Some"; "Much"] None 3 [])
    as (Hraised & _ & Hother & _).
  - reflexivity.
  - reflexivity.
  - vm_compute. reflexivity.
  - reflexivity.
  - reflexivity.
  - split; [exact Hraised|]. split; [vm_compute; reflexivity|].
    apply Hother. discriminate.
Defined.

(** A table of rank zero has no first dimension to compare, and a name
    that is no node has no parents to count: the call raises the index
    error, respectively the key error, and the network stays as it was. *)
Theorem addProbabilityTable_no_node (g : BayesianNet) (uName : string)
    (table : ndarray) (sts : list string) (deps : option (list string)) :
  (shape table = [] ->
     addProbabilityTable uName table sts deps g
     = {| raised := Some (IndexError "tuple index out of range"); printed := [];
          self := g |}) /\
  (forall rest,
     shape table = length sts :: rest ->
     uName ∉ name <$> vertexes g ->
     addProbabilityTable uName table sts deps g
     = {| raised := Some (KeyError uName); printed := []; self := g |}).
Proof.
  unfold addProbabilityTable. split.
  - by intros ->.
  - intros rest -> Hnin. rewrite decide_False by (intros H; by apply H).
    unfold getParents, vertexObject. by rewrite dict_getitem_missing.
Qed.

Lemma addProbabilityTable_no_node_witness :
  addProbabilityTable "Smoking" (array [] [1]%Q) [] None Examples.chain
  = {| raised := Some (IndexError "tuple index out of range"); printed := [];
       self := Examples.chain |} /\
  addProbabilityTable "Tar" (array [2] [0.5; 0.5]%Q) ["T"; "F"] None Examples.chain
  = {| raised := Some (KeyError "Tar"); printed := []; self := Examples.chain |}.
Proof.
  split.
  - apply (addProbabilityTable_no_node Examples.chain "Smoking"). reflexivity.
  - eapply (addProbabilityTable_no_node Examples.chain "Tar"); [reflexivity|].
    vm_compute. intros Hin. apply list_elem_of_In in Hin. cbn in Hin.
    destruct Hin as [Hin|[Hin|[]]]; discriminate Hin.
Defined.

(** ** The tables of a network fit their nodes *)

Lemma attached_dict_update (Q : attributes -> Prop) (vs : list _Vertex) (vName : string)
    (f : _Vertex -> _Vertex) :
  (forall v a, v ∈ vs -> attached v = Some a -> Q a) ->
  (forall v a, v ∈ vs -> name v = vName -> attached (f v) = Some a -> Q a) ->
  forall v' a, v' ∈ dict_update vs vName f -> attached v' = Some a -> Q a.
Proof.
  intros Hold Hnew v' a Hin Ha.
  apply elem_of_dict_update in Hin as [Hin|(v & Hv & Hn & ->)]; [by eapply Hold|].
  by eapply Hnew.
Qed.

Lemma tables_fit_of_reachable (g : BayesianNet) :
  reachable g ->
  forall v a, v ∈ vertexes g -> attached v = Some a ->
    table_fits a /\ length (dependencyList a) <= length (parents_of (vertexes g) v).
Proof.
  intros Hg v a Hv Ha. split; [|by apply (reachable_dependencies_bounded g Hg)].
  revert v a Hv Ha.
  induction Hg as [|g nm _ IH|g p c w _ IH|g u P st deps _ IH|g ev _ IH|g _ IH].
  - intros v a Hv. by apply elem_of_nil in Hv.
  - intros v a Hv Ha. unfold addVertex, vertexes in Hv. case_bool_decide; [by eapply IH|].
    cbn in Hv. apply elem_of_app in Hv as [Hv|Hv]; [by eapply IH|].
    apply list_elem_of_singleton in Hv as ->. done.
  - unfold addEdge. case_bool_decide; [done|]. unfold vertexes. cbn.
    apply attached_dict_update.
    + intros v a Hv Ha. unfold addVertex in Hv. repeat case_bool_decide; cbn in Hv;
        repeat (apply elem_of_app in Hv as [Hv|Hv]);
        try (apply list_elem_of_singleton in Hv as ->; done); by eapply IH.
    + intros v a Hv _ Ha. cbn in Ha. unfold addVertex in Hv. repeat case_bool_decide; cbn in Hv;
        repeat (apply elem_of_app in Hv as [Hv|Hv]);
        try (apply list_elem_of_singleton in Hv as ->; done); by eapply IH.
  - unfold addProbabilityTable.
    destruct (shape P) as [|shape0 rest] eqn:Hshape; [done|].
    destruct (decide (shape0 ≠ length st)) as [|H0]; [done|].
    destruct (getParents g u) as [parents|e]; [|done].
    destruct (decide (length (shape0 :: rest) ≠ length parents + 1)); [done|].
    destruct (decide (length (shape0 :: rest) ≠ length (default [] deps) + 1))
      as [|Hdeps]; [done|].
    unfold vertexes. cbn. apply attached_dict_update; [done|].
    intros v a _ _ [= <-]. exists rest. cbn.
    apply dec_stable in H0. apply dec_stable in Hdeps. cbn in Hdeps.
    split; [by rewrite Hshape, H0 | lia].
  - by rewrite (proj1 (vertexes_setEvidence g ev)).
  - done.
Qed.

(** In a network built through the methods of the class every attached
    table fits its node, and its node has at least as many parents in
    the graph as it declares dependencies. *)
Theorem reachable_tables_fit (g : BayesianNet) :
  reachable g ->
  forall v a, v ∈ vertexes g -> attached v = Some a ->
    table_fits a /\ length (dependencyList a) <= length (parents_of (vertexes g) v).
Proof. apply tables_fit_of_reachable. Qed.

Lemma reachable_tables_fit_witness :
  table_fits {| probability := Examples.P_Cancer; states := ["None"; "Benign"; "Malignant"];
                dependencyList := ["Smoking"] |}.
Proof.
  eapply (reachable_tables_fit Examples.chain reachable_chain).
  - vm_compute. right. left.
  - reflexivity.
Defined.

(** ** Setting the evidence: when it succeeds *)

Lemma validate_valid (g : BayesianNet) (evidence : list (string * string)) :
  validate g evidence = valid -> Forall (valid_entry g) evidence.
Proof.
  induction evidence as [|[n s] evidence IH]; cbn; [constructor|].
  destruct (vertexObject g n) as [v|[]] eqn:Hv; try done.
  unfold getattr. destruct (attached v) as [a|] eqn:Ha; [|done].
  case_bool_decide as Hs; [|done]. intros H. constructor; [|by apply IH].
  by exists v, a.
Qed.

(** [setEvidence] takes the list exactly when every entry names a node
    with a table and gives one of that node's states; in every other
    case, raising or not, the network stays as it was. *)
Theorem setEvidence_succeeded_iff (g : BayesianNet) (evidence : list (string * string)) :
  (succeeded (setEvidence evidence g) <-> Forall (valid_entry g) evidence) /\
  (~ Forall (valid_entry g) evidence -> self (setEvidence evidence g) = g).
Proof.
  assert (Hiff : succeeded (setEvidence evidence g) <-> Forall (valid_entry g) evidence).
  { split.
    - intros H. apply setEvidence_succeeded in H as [H _]. by apply validate_valid.
    - intros H. unfold setEvidence. rewrite <- (app_nil_r evidence).
      by rewrite validate_valid_app. }
  split; [exact Hiff|]. intros Hnot. unfold setEvidence.
  destruct (validate g evidence) eqn:Hv; [|done..].
  exfalso. by apply Hnot, validate_valid.
Qed.

Lemma setEvidence_succeeded_iff_witness :
  Forall (valid_entry Examples.sprinkler) [("rain", "T")] /\
  self (setEvidence [("rain", "wet")] Examples.sprinkler) = Examples.sprinkler.
Proof.
  destruct (setEvidence_succeeded_iff Examples.sprinkler [("rain", "T")]) as [[H _] _].
  destruct (setEvidence_succeeded_iff Examples.sprinkler [("rain", "wet")]) as [[H' _] Hself].
  split.
  - apply H. split; reflexivity.
  - apply Hself. intros Hvalid. apply Forall_cons_1 in Hvalid as [(v & a & Hv & Ha & Hs) _].
    vm_compute in Hv. injection Hv as <-. injection Ha as <-. cbn in Hs.
    apply list_elem_of_In in Hs. cbn in Hs. destruct Hs as [Hs|[Hs|[]]]; discriminate Hs.
Defined.

(** ** Queries on a name that is no node *)

(** A marginal asked for a name that is no node raises the key error,
    and so does the inference query unless the evidence list holds an
    entry for the name. For a node without a table both raise the
    attribute error of [dependencyList]. *)
Theorem query_without_table (g : BayesianNet) (uName : string) (total : bool) :
  (uName ∉ name <$> vertexes g ->
     marginalProbability g uName total = Raise (KeyError uName) /\
     (uName ∉ (evidenceList g).*1 -> getInference g uName = Raise (KeyError uName))) /\
  (forall u, vertexObject g uName = Ok u -> attached u = None ->
     marginalProbability g uName total = Raise (AttributeError "dependencyList") /\
     (uName ∉ (evidenceList g).*1 ->
        getInference g uName = Raise (AttributeError "dependencyList"))).
Proof.
  split.
  - intros Hnin.
    assert (H : forall t, marginalProbability g uName t = Raise (KeyError uName)).
    { intros t. unfold marginalProbability, vertexObject. by rewrite dict_getitem_missing. }
    split; [done|]. intros Hev. unfold getInference.
    apply first_evidence_None in Hev. by rewrite Hev, H.
  - intros u Hu Ha.
    assert (H : forall t, marginalProbability g uName t
                          = Raise (AttributeError "dependencyList")).
    { intros t. unfold marginalProbability. rewrite Hu, bind_Ok_l. unfold getattr.
      by rewrite Ha. }
    split; [done|]. intros Hev. unfold getInference.
    apply first_evidence_None in Hev. by rewrite Hev, H.
Qed.

Lemma query_without_table_witness :
  getInference Examples.chain "Tar" = Raise (KeyError "Tar") /\
  marginalProbability Examples.chain_partial "Cancer" true
  = Raise (AttributeError "dependencyList").
Proof.
  split.
  - destruct (query_without_table Examples.chain "Tar" true) as [H _].
    apply H.
    + vm_compute. intros Hin. apply list_elem_of_In in Hin. cbn in Hin.
      destruct Hin as [Hin|[Hin|[]]]; discriminate Hin.
    + vm_compute. intros Hin. apply list_elem_of_In in Hin. destruct Hin.
  - destruct (query_without_table Examples.chain_partial "Cancer" true) as [_ H].
    eapply H; [vm_compute; reflexivity | reflexivity].
Defined.

(** ** The axes of the joint *)

Lemma indexDict_getitem_lookup (g : BayesianNet) (i : nat) (v : _Vertex) :
  NoDup (name <$> vertexes g) ->
  vertexes g !! i = Some v ->
  indexDict_getitem (indexDict g) (name v) = Ok (i + 97).
Proof.
  intros Hnd Hi.
  destruct (indexDict_getitem_total (vertexes g) 0 v) as [l Hl].
  { apply list_elem_of_lookup. by exists i. }
  change (imap _ (vertexes g)) with (indexDict g) in Hl. rewrite Hl.
  apply indexDict_getitem_Ok in Hl as (j & w & -> & Hj & Hw).
  unfold vertexObject in Hw. apply dict_getitem_Ok in Hw as [_ Hn].
  assert (j = i) as ->; [|done].
  eapply (NoDup_lookup _ _ _ (name v) Hnd); rewrite list_lookup_fmap.
  - by rewrite Hj, <- Hn.
  - by rewrite Hi.
Qed.

Lemma elem_of_last_split (evidence : list (string * string)) (vName : string) :
  vName ∈ evidence.*1 ->
  exists pre vState post,
    evidence = pre ++ (vName, vState) :: post /\ vName ∉ post.*1.
Proof.
  induction evidence as [|[n s] evidence IH]; intros Hin; [by apply elem_of_nil in Hin|].
  destruct (decide (vName ∈ evidence.*1)) as [Hrest|Hrest].
  - destruct (IH Hrest) as (pre & vState & post & -> & Hpost).
    by exists ((n, s) :: pre), vState, post.
  - cbn in Hin. apply elem_of_cons in Hin as [->|Hin]; [|done].
    by exists [], s, evidence.
Qed.

Lemma filter_length_pointwise {A B : Type} (P : A -> Prop) (Q : B -> Prop)
    `{!forall x, Decision (P x)} `{!forall y, Decision (Q y)} (l1 : list A) (l2 : list B) :
  length l1 = length l2 ->
  (forall i x y, l1 !! i = Some x -> l2 !! i = Some y -> (P x <-> Q y)) ->
  length (filter P l1) = length (filter Q l2).
Proof.
  revert l2. induction l1 as [|x l1 IH]; intros [|y l2] Hlen Hpt; try done.
  rewrite !filter_cons. assert (P x <-> Q y) as Hxy by (by apply (Hpt 0)).
  assert (length (filter P l1) = length (filter Q l2)) as Hrec.
  { apply IH; [cbn in Hlen; lia|]. intros i. apply (Hpt (S i)). }
  destruct (decide (P x)), (decide (Q y)); cbn [length]; tauto || lia.
Qed.

(** The array [jointProbability] returns has one axis per vertex it was
    asked for when no evidence is set, and, under evidence, one axis per
    vertex that no entry of the evidence list names: as many axes as the
    contraction in [marginalProbability] gives it subscripts. *)
Theorem jointProbability_ndim (g : BayesianNet) (vertexList : option (list _Vertex))
    (p : ndarray) :
  jointProbability g vertexList = Ok p ->
  (evidenceList g = [] -> ndim p = length (queried g vertexList)) /\
  (evidenceList g ≠ [] -> NoDup (name <$> vertexes g) ->
     ndim p = length (filter (fun v => name v ∉ (evidenceList g).*1) (vertexes g))).
Proof.
  unfold jointProbability. intros H.
  apply bind_Ok in H as (raw & Hraw & H). pose proof (contraction_ndim _ _ _ Hraw) as Hndim.
  split.
  - intros Hev. rewrite decide_True in H by done. by injection H as <-.
  - intros Hev Hnd. rewrite decide_False in H by done.
    rewrite queried_evidence in Hndim by done.
    apply bind_Ok in H as (dimList & Hdim & H).
    apply bind_Ok in H as (slicedProb & Hget & [= <-]).
    apply foldM_clamp_Ok in Hdim as (Hlen & Hkeep & Hset).
    change (ndim (divide raw (sum raw))) with (ndim raw) in Hlen.
    rewrite length_replicate in Hlen.
    apply getitem_Ok in Hget as [Hshape _].
    unfold ndim at 1. cbn [shape divide]. rewrite Hshape.
    rewrite getitem_shape_kept by (cbn; unfold ndim in Hlen, Hndim; lia).
    rewrite length_fmap. apply filter_length_pointwise.
    { rewrite length_zip_with. cbn. unfold ndim in Hlen, Hndim. lia. }
    intros i [d n] v Hzip Hv. apply lookup_zip_with_Some in Hzip as (d' & n' & [= -> ->] & Hd & _).
    cbn. split.
    + intros -> Hin. apply elem_of_last_split in Hin as (pre & s & post & Heq & Hpost).
      destruct (Hset pre (name v) s post Heq Hpost) as (i' & v' & a & j & Hl & _ & _ & _ & _ & Hi').
      rewrite (indexDict_getitem_lookup g i v Hnd Hv) in Hl. injection Hl as Hl.
      assert (i' = i) as -> by lia. congruence.
    + intros Hnin. rewrite (Hkeep i v Hv Hnin) in Hd.
      apply lookup_replicate in Hd as [-> _]. done.
Qed.

Lemma jointProbability_ndim_witness :
  let g := self (setEvidence [("rain", "T"); ("cloudy", "F")] Examples.sprinkler) in
  exists p, jointProbability g None = Ok p /\ ndim p = 2.
Proof.
  intros g. eexists. split; [vm_compute; reflexivity|].
  eapply eq_trans; [eapply (jointProbability_ndim g None)|].
  - vm_compute. reflexivity.
  - vm_compute. discriminate.
  - apply NoDup_names_of_reachable. apply reachable_setEvidence. exact reachable_sprinkler.
  - vm_compute. reflexivity.
Defined.

(** ** What the contraction refuses *)

Lemma traverse_Ok_inv {A B : Type} (f : A -> result B) (l : list A) (ys : list B) :
  traverse f l = Ok ys -> Forall2 (fun x y => f x = Ok y) l ys.
Proof.
  revert ys. induction l as [|x l IH]; intros ys H; cbn in H.
  - injection H as <-. constructor.
  - apply bind_Ok in H as (y & Hy & H). apply bind_Ok in H as (ys' & Hys & [= <-]).
    constructor; [done | by apply IH].
Qed.

Lemma foldM_Raise {A B : Type} (f : B -> A -> result B) (acc : B) (l : list A) (x : A) :
  x ∈ l -> (forall acc, exists e, f acc x = Raise e) -> exists e, foldM f acc l = Raise e.
Proof.
  intros Hin Hx. revert acc. induction l as [|y l IH]; intros acc.
  - by apply elem_of_nil in Hin.
  - cbn. destruct (f acc y) as [acc'|e] eqn:Hy; [|by exists e].
    apply elem_of_cons in Hin as [->|Hin].
    + destruct (Hx acc) as [e He]. congruence.
    + cbn. by apply IH.
Qed.

Lemma einsum_not_a_letter (operands : list (list nat * ndarray)) (out ls : list nat)
    (l : nat) (a : ndarray) :
  (l :: ls, a) ∈ operands -> isalpha l = false ->
  exists e, einsum operands out = Raise e.
Proof.
  intros Hin Hl. unfold einsum. destruct operands as [|op operands]; [by eexists|].
  destruct (foldM_Raise
              (fun env op => own ← operand_extents [] op.1 (shape op.2); merge_extents env own)
              [] (op :: operands) (l :: ls, a) Hin) as [e He].
  - intros env. cbn. destruct (shape a); [by eexists|]. rewrite Hl. by eexists.
  - rewrite He. by exists e.
Qed.

Lemma operand_extents_labels (env env' : extents) (ls s : list nat) :
  operand_extents env ls s = Ok env' ->
  forall l, l ∈ env'.*1 -> l ∈ env.*1 \/ l ∈ ls.
Proof.
  revert env s. induction ls as [|l0 ls IH]; intros env [|n s] H; try done.
  - injection H as <-. by left.
  - cbn in H. destruct (negb (isalpha l0)); [done|].
    destruct (lookup_label l0 env) as [m|].
    + destruct (decide (m = n)); [|done]. intros l Hl.
      destruct (IH _ _ H l Hl); [by left | right; by right].
    + intros l Hl. destruct (IH _ _ H l Hl) as [Hin|Hin]; [|right; by right].
      rewrite fmap_app in Hin. apply elem_of_app in Hin as [Hin|Hin]; [by left|].
      cbn in Hin. apply list_elem_of_singleton in Hin as ->. right. by left.
Qed.

Lemma lookup_label_None (l : nat) (env : extents) :
  l ∉ env.*1 -> lookup_label l env = None.
Proof.
  induction env as [|[l' n] env IH]; [done|]. cbn. intros Hnin.
  apply not_elem_of_cons in Hnin as [Hne Hnin]. rewrite decide_False by done. by apply IH.
Qed.

Lemma labels_set_extent (l k : nat) (env : extents) : (set_extent l k env).*1 = env.*1.
Proof.
  unfold set_extent. induction env as [|[l' n] env IH]; [done|]. cbn.
  f_equal; [|exact IH]. by case_decide.
Qed.

Lemma merge_extents_labels (env own env' : extents) :
  merge_extents env own = Ok env' ->
  forall l, l ∈ env'.*1 -> l ∈ env.*1 \/ l ∈ own.*1.
Proof.
  revert env. induction own as [|[l0 n] own IH]; intros env H l Hl; cbn in H.
  - injection H as <-. by left.
  - destruct (lookup_label l0 env) as [m|].
    + destruct (broadcast m n) as [k|]; [|done].
      destruct (IH _ H l Hl) as [Hin|Hin]; [|right; by right].
      rewrite labels_set_extent in Hin. by left.
    + destruct (IH _ H l Hl) as [Hin|Hin]; [|right; by right].
      rewrite fmap_app in Hin. apply elem_of_app in Hin as [Hin|Hin]; [by left|].
      cbn in Hin. apply list_elem_of_singleton in Hin as ->. right. by left.
Qed.

Lemma einsum_output_missing (lhs : list nat) (a : ndarray) (rhs : nat) :
  rhs ∉ lhs -> exists e, einsum [(lhs, a)] [rhs] = Raise e.
Proof.
  intros Hnin. unfold einsum. cbn [foldM]. cbn [fst snd].
  destruct (operand_extents [] lhs (shape a)) as [own|e] eqn:Hown; [|by exists e].
  rewrite bind_Ok_l.
  destruct (merge_extents [] own) as [env|e] eqn:Henv; [|by exists e].
  cbn. rewrite lookup_label_None; [by eexists|].
  intros Hin. destruct (merge_extents_labels _ _ _ Henv rhs Hin) as [H|H].
  - by apply elem_of_nil in H.
  - destruct (operand_extents_labels _ _ _ _ Hown rhs H) as [H'|H']; [|done].
    by apply elem_of_nil in H'.
Qed.

Lemma marginalProbability_clamped_raises (g : BayesianNet) (uName : string) (total : bool) :
  uName ∈ (evidenceList g).*1 ->
  exists e, marginalProbability g uName total = Raise e.
Proof.
  intros Hin.
  assert (Hev : evidenceList g ≠ []).
  { intros Hev. rewrite Hev in Hin. by apply elem_of_nil in Hin. }
  unfold marginalProbability.
  destruct (vertexObject g uName) as [u|e] eqn:Hu; [|by exists e]. rewrite bind_Ok_l.
  destruct (getattr u "dependencyList" dependencyList) as [deps|e]; [|by exists e].
  rewrite bind_Ok_l. rewrite decide_False by (by intros [_ ?]).
  rewrite (decide_False (P := evidenceList g = [])) by done. rewrite bind_Ok_l.
  destruct (jointProbability g (Some (vertexes g))) as [jointProb|e]; [|by exists e].
  rewrite bind_Ok_l.
  destruct (traverse (fun v => indexDict_getitem (indexDict g) (name v))
              (filter (fun v => name v ∉ (evidenceList g).*1) (vertexes g)))
    as [lhs|e] eqn:Hlhs; [|by exists e].
  rewrite bind_Ok_l.
  destruct (indexDict_getitem (indexDict g) uName) as [rhs|e] eqn:Hrhs; [|by exists e].
  rewrite bind_Ok_l. apply einsum_output_missing. intros Hmem.
  apply traverse_Ok_inv in Hlhs. apply list_elem_of_lookup in Hmem as [k Hk].
  destruct (Forall2_lookup_r _ _ _ _ _ Hlhs Hk) as (v & Hv & Hl).
  apply list_elem_of_lookup_2 in Hv. apply list_elem_of_filter in Hv as [Hclamped _].
  apply indexDict_getitem_Ok in Hrhs as (i & w & -> & Hi & Hw).
  unfold vertexObject in Hw. apply dict_getitem_Ok in Hw as [_ Hname].
  apply Hclamped. rewrite (indexDict_getitem_name g i w (name v) Hi Hl) in Hname.
  by rewrite Hname.
Qed.

(** Under evidence the marginal of a node that an entry of the evidence
    list names is never returned: its label is not among the subscripts
    of the sliced joint, and the call raises. Only [getInference], which
    answers such a node with its state, may be asked about it. *)
Theorem marginalProbability_clamped (g : BayesianNet) (uName : string) (total : bool) :
  uName ∈ (evidenceList g).*1 ->
  exists e, marginalProbability g uName total = Raise e.
Proof. apply marginalProbability_clamped_raises. Qed.

Lemma marginalProbability_clamped_witness :
  let g := self (setEvidence [("rain", "T")] Examples.sprinkler) in
  exists e, marginalProbability g "rain" true = Raise e.
Proof.
  intros g. apply (marginalProbability_clamped g "rain" true). vm_compute. left.
Defined.

(** ** More nodes than letters *)

Lemma contraction_alphabet (g : BayesianNet) :
  NoDup (name <$> vertexes g) ->
  26 < length (vertexes g) ->
  exists e, contraction g (vertexes g) = Raise e.
Proof.
  intros Hnd Hlen. unfold contraction.
  destruct (traverse (fun v => getattr v "probability" probability) (vertexes g))
    as [probList|e] eqn:Hprob; [|by exists e].
  rewrite bind_Ok_l.
  destruct (traverse (fun v => indexDict_getitem (indexDict g) (name v)) (vertexes g))
    as [rhs|e]; [|by exists e].
  rewrite bind_Ok_l.
  destruct (traverse (lhsTerm (indexDict g)) (vertexes g)) as [lhsList|e] eqn:Hlhs;
    [|by exists e].
  rewrite bind_Ok_l.
  destruct (lookup_lt_is_Some_2 (vertexes g) 26 Hlen) as [v Hv].
  apply traverse_Ok_inv in Hprob. apply traverse_Ok_inv in Hlhs.
  destruct (Forall2_lookup_l _ _ _ _ _ Hprob Hv) as (a & Ha & _).
  destruct (Forall2_lookup_l _ _ _ _ _ Hlhs Hv) as (t & Ht & Hterm).
  unfold lhsTerm in Hterm. rewrite (indexDict_getitem_lookup g 26 v Hnd Hv) in Hterm.
  rewrite bind_Ok_l in Hterm.
  apply bind_Ok in Hterm as (deps & _ & Hterm). apply bind_Ok in Hterm as (ls & _ & [= <-]).
  apply (einsum_not_a_letter _ _ ls (26 + 97) a); [|done].
  apply list_elem_of_lookup. exists 26. apply lookup_zip_with_Some. by eexists _, _.
Qed.

(** The labels are the letters from [a] on: over a network of more than
    twenty-six nodes the contraction over all nodes has a subscript that
    is no letter, and [jointProbability] raises whenever it works on the
    full network, as it does for [None] and under evidence. *)
Theorem jointProbability_alphabet (g : BayesianNet) (vertexList : option (list _Vertex)) :
  NoDup (name <$> vertexes g) ->
  26 < length (vertexes g) ->
  vertexList = None \/ evidenceList g ≠ [] ->
  exists e, jointProbability g vertexList = Raise e.
Proof.
  intros Hnd Hlen Hall. unfold jointProbability.
  assert (queried g vertexList = vertexes g) as ->.
  { destruct Hall as [->|Hev]; [done | by apply queried_evidence]. }
  destruct (contraction_alphabet g Hnd Hlen) as [e He]. rewrite He. by exists e.
Qed.

Lemma reachable_wide : reachable wide.
Proof.
  assert (H : forall l g, reachable g ->
            reachable (foldl (fun g nm =>
              self (addProbabilityTable nm (array [1] [1]%Q) ["on"] None g)) g l)).
  { induction l as [|nm l IH]; intros g Hg; [done|]. cbn [foldl]. apply IH.
    by apply reachable_addProbabilityTable. }
  apply H, reachable__init__.
Qed.

Lemma jointProbability_alphabet_witness :
  Forall (fun v => is_Some (attached v)) (vertexes wide) /\
  exists e, jointProbability wide None = Raise e.
Proof.
  split.
  - vm_compute. repeat constructor; eexists; reflexivity.
  - apply (jointProbability_alphabet wide None).
    + apply NoDup_names_of_reachable, reachable_wide.
    + vm_compute. repeat constructor.
    + by left.
Defined.

(** ** Construction *)

Lemma elem_of_names_addEdge (g : BayesianNet) (pName cName : string) (weight : Z) (x : string) :
  edges_have_ends g ->
  x ∈ name <$> vertexes (addEdge pName cName weight g)
  <-> x = pName \/ x = cName \/ x ∈ name <$> vertexes g.
Proof.
  intros Hends. rewrite names_addEdge. case_bool_decide as Hin.
  - apply Hends in Hin as [Hp Hc]. split; [tauto|]. intros [->|[->|?]]; done.
  - rewrite !elem_of_names_addVertex. tauto.
Qed.

(** [BayesianNet(vertexes, edges)] has a node for every name of the
    first list and for both ends of every edge of the second, no other
    node, no evidence, and every edge of the list is in its dict. *)
Theorem __init___spec (vs : list string) (es : list (string * string * Z)) :
  (forall x, x ∈ name <$> vertexes (__init__ vs es)
     <-> x ∈ vs \/ x ∈ es.*1.*1 \/ x ∈ es.*1.*2) /\
  (forall pName cName, (pName, cName) ∈ dom (_edges (__init__ vs es))
     <-> (pName, cName) ∈ es.*1) /\
  evidenceList (__init__ vs es) = [].
Proof.
  unfold __init__.
  set (g0 := {| _vertexes := []; _edges := ∅; evidenceList := [] |}).
  assert (Hvs : forall l g, reachable g ->
    let g' := foldl (fun g v => addVertex v g) g l in
    reachable g' /\
    (forall x, x ∈ name <$> vertexes g' <-> x ∈ l \/ x ∈ name <$> vertexes g) /\
    _edges g' = _edges g /\ evidenceList g' = evidenceList g).
  { induction l as [|v l IH]; intros g Hg; cbn.
    - split; [done|]. split; [|done]. intros x. rewrite elem_of_nil. tauto.
    - destruct (IH (addVertex v g)) as (Hr & Hn & He & Hev); [by constructor|].
      split; [done|]. split; [|split].
      + intros x. rewrite Hn, elem_of_names_addVertex, elem_of_cons. tauto.
      + rewrite He. unfold addVertex. by case_bool_decide.
      + rewrite Hev. unfold addVertex. by case_bool_decide. }
  assert (Hes : forall l g, reachable g ->
    let g' := foldl (fun g e => addEdge e.1.1 e.1.2 e.2 g) g l in
    (forall x, x ∈ name <$> vertexes g'
       <-> x ∈ l.*1.*1 \/ x ∈ l.*1.*2 \/ x ∈ name <$> vertexes g) /\
    (forall p c, (p, c) ∈ dom (_edges g') <-> (p, c) ∈ l.*1 \/ (p, c) ∈ dom (_edges g)) /\
    evidenceList g' = evidenceList g).
  { induction l as [|[[p c] w] l IH]; intros g Hg; cbn.
    - split; [|split; [|done]]; intros *; rewrite ?elem_of_nil; tauto.
    - destruct (IH (addEdge p c w g)) as (Hn & He & Hev); [by constructor|].
      split; [|split].
      + intros x. rewrite Hn, elem_of_names_addEdge by by apply reachable_edges_have_ends.
        rewrite !elem_of_cons. tauto.
      + intros p' c'. rewrite He, elem_of_cons. unfold addEdge. case_bool_decide as Hin.
        * split; [tauto|]. intros [[[= -> ->]|?]|?]; tauto.
        * cbn. rewrite dom_insert, elem_of_union, elem_of_singleton.
          assert (_edges (addVertex c (addVertex p g)) = _edges g) as ->.
          { unfold addVertex. by repeat case_bool_decide. }
          split; [intros [?|[[= -> ->]|?]]; tauto | intros [[[= -> ->]|?]|?]; tauto].
      + rewrite Hev. unfold addEdge. case_bool_decide; [done|]. cbn.
        unfold addVertex. by repeat case_bool_decide. }
  destruct (Hvs vs g0) as (Hr & Hn & He & Hev); [constructor|].
  destruct (Hes es _ Hr) as (Hn' & He' & Hev').
  split; [|split].
  - intros x. rewrite Hn', Hn. cbn. rewrite elem_of_nil. tauto.
  - intros p c. rewrite He', He. cbn. rewrite dom_empty, elem_of_empty. tauto.
  - by rewrite Hev', Hev.
Qed.

(** ** Adding a child *)

(** In a network built through the methods of the class, after
    [addChild(pName, cName)] the node [pName] is among the parents of
    [cName], and no node has a parent it had not before other than this
    one. *)
Theorem addChild_getParents (g : BayesianNet) (pName cName : string) :
  reachable g ->
  (exists parents p, getParents (addChild pName cName g) cName = Ok parents /\
     p ∈ parents /\ name p = pName) /\
  (forall uName parents q,
     getParents (addChild pName cName g) uName = Ok parents -> q ∈ parents ->
     (name q, uName) ∈ dom (_edges g) \/ (name q = pName /\ uName = cName)).
Proof.
  intros Hg. set (g' := addChild pName cName g).
  assert (Hg' : reachable g') by by constructor.
  assert (Hdom : forall p c, (p, c) ∈ dom (_edges g')
                 <-> (p, c) = (pName, cName) \/ (p, c) ∈ dom (_edges g)).
  { intros p c. unfold g', addChild, addEdge. case_bool_decide as Hin.
    - split; [tauto|]. intros [[= -> ->]|?]; done.
    - cbn. rewrite dom_insert, elem_of_union, elem_of_singleton.
      assert (_edges (addVertex cName (addVertex pName g)) = _edges g) as ->; [|done].
      unfold addVertex. by repeat case_bool_decide. }
  assert (Hedge : (pName, cName) ∈ dom (_edges g')) by (apply Hdom; by left).
  split.
  - destruct (reachable_edges_have_ends g' Hg' _ _ Hedge) as [Hp Hc].
    destruct (getParents_of_reachable g' cName Hg') as [Hpar _].
    destruct (Hpar Hc) as (parents & Hparents & _ & Hmem).
    apply list_elem_of_fmap in Hp as (p & Hname & Hp).
    exists parents, p. split; [done|]. split; [|done]. apply Hmem. by rewrite <- Hname.
  - intros uName parents q Hparents Hq.
    destruct (getParents_of_reachable g' uName Hg') as [Hpar Hmissing].
    destruct (decide (uName ∈ name <$> vertexes g')) as [Hin|Hnin].
    + destruct (Hpar Hin) as (parents' & Hparents' & _ & Hmem).
      rewrite Hparents in Hparents'. injection Hparents' as <-.
      apply Hmem in Hq as [_ Hq]. apply Hdom in Hq as [[= -> ->]|Hq]; [by right | by left].
    + rewrite (Hmissing Hnin) in Hparents. discriminate Hparents.
Qed.

Lemma addChild_getParents_witness :
  exists parents p, getParents (addChild "Cancer" "Death" Examples.chain) "Death" = Ok parents /\
    p ∈ parents /\ name p = "Cancer".
Proof. apply (addChild_getParents Examples.chain "Cancer" "Death" reachable_chain). Defined.

(** ** A marginal has one axis *)

Lemma marginalProbability_one_axis (g : BayesianNet) (uName : string) (total : bool)
    (p : ndarray) :
  reachable g ->
  marginalProbability g uName total = Ok p ->
  ndim p = 1.
Proof.
  intros Hg. unfold marginalProbability. intros H.
  apply bind_Ok in H as (u & Hu & H). apply bind_Ok in H as (deps & Hdeps & H).
  case_decide as Hfast.
  - destruct Hfast as [-> _]. unfold getattr in *.
    destruct (attached u) as [a|] eqn:Ha; [|done].
    injection H as <-. injection Hdeps as Hdeps.
    unfold vertexObject in Hu. apply dict_getitem_Ok in Hu as [Hin _].
    destruct (tables_fit_of_reachable g Hg u a Hin Ha) as [(rest & Hshape & Hrest) _].
    unfold ndim. rewrite Hshape. cbn. rewrite Hrest, Hdeps. done.
  - apply bind_Ok in H as (vertexList & _ & H). apply bind_Ok in H as (jointProb & _ & H).
    apply bind_Ok in H as (lhs & _ & H). apply bind_Ok in H as (rhs & _ & H).
    by apply einsum_ndim in H.
Qed.

(** In a network built through the methods of the class, whatever
    [marginalProbability] returns has exactly one axis. *)
Theorem marginalProbability_ndim (g : BayesianNet) (uName : string) (total : bool)
    (p : ndarray) :
  reachable g ->
  marginalProbability g uName total = Ok p ->
  ndim p = 1.
Proof. apply marginalProbability_one_axis. Qed.

Lemma marginalProbability_ndim_witness :
  exists p, marginalProbability Examples.sprinkler "rain" false = Ok p /\ ndim p = 1.
Proof.
  eexists. split; [vm_compute; reflexivity|].
  eapply (marginalProbability_ndim Examples.sprinkler "rain" false).
  - exact reachable_sprinkler.
  - vm_compute. reflexivity.
Defined.

(** ** Valid evidence selects within bounds *)

Lemma lookup_label_app (l : nat) (env env' : extents) :
  lookup_label l (env ++ env')
  = match lookup_label l env with
    | Some n => Some n
    | None => lookup_label l env'
    end.
Proof.
  induction env as [|[l' n] env IH]; cbn; [done|].
  by destruct (decide (l = l')).
Qed.

Lemma operand_extents_Ok (env env' : extents) (ls s : list nat) :
  operand_extents env ls s = Ok env' ->
  (forall l n, lookup_label l env = Some n -> lookup_label l env' = Some n) /\
  (forall j l n, ls !! j = Some l -> s !! j = Some n -> lookup_label l env' = Some n).
Proof.
  revert env s. induction ls as [|l0 ls IH]; intros env [|n0 s] H; try done.
  - injection H as <-. split; [done|]. intros j l n Hl. done.
  - cbn in H. destruct (negb (isalpha l0)); [done|].
    destruct (lookup_label l0 env) as [m|] eqn:Hl0.
    + destruct (decide (m = n0)) as [->|]; [|done].
      destruct (IH _ _ H) as [Hkeep Hnew]. split; [done|].
      intros [|j] l n Hl Hn; cbn in Hl, Hn; [|by eapply Hnew].
      injection Hl as <-. injection Hn as <-. by apply Hkeep.
    + destruct (IH _ _ H) as [Hkeep Hnew]. split.
      * intros l n Hl. apply Hkeep. by rewrite lookup_label_app, Hl.
      * intros [|j] l n Hl Hn; cbn in Hl, Hn; [|by eapply Hnew].
        injection Hl as <-. injection Hn as <-. apply Hkeep.
        rewrite lookup_label_app, Hl0. cbn. by rewrite decide_True.
Qed.

Lemma lookup_label_elem (l n : nat) (env : extents) :
  lookup_label l env = Some n -> (l, n) ∈ env.
Proof.
  induction env as [|[l' m] env IH]; cbn; [done|].
  destruct (decide (l = l')) as [->|]; [intros [= ->]; by left|].
  intros H. right. by apply IH.
Qed.

Lemma lookup_label_None_inv (l : nat) (env : extents) :
  lookup_label l env = None -> l ∉ env.*1.
Proof.
  induction env as [|[l' m] env IH]; cbn; [intros _; apply not_elem_of_nil|].
  destruct (decide (l = l')) as [->|Hne]; [done|].
  intros H. apply not_elem_of_cons. split; [done | by apply IH].
Qed.

Lemma operand_extents_labels_NoDup (env env' : extents) (ls s : list nat) :
  operand_extents env ls s = Ok env' -> NoDup env.*1 -> NoDup env'.*1.
Proof.
  revert env s. induction ls as [|l0 ls IH]; intros env [|n0 s] H Hnd; try done.
  - by injection H as <-.
  - cbn in H. destruct (negb (isalpha l0)); [done|].
    destruct (lookup_label l0 env) as [m|] eqn:Hl0.
    + destruct (decide (m = n0)); [|done]. by eapply IH.
    + eapply IH; [done|]. rewrite fmap_app. apply NoDup_app. split_and!; [done| |].
      * intros x Hx Hx'. cbn in Hx'. apply list_elem_of_singleton in Hx' as ->.
        by apply lookup_label_None_inv in Hl0.
      * cbn. apply NoDup_singleton.
Qed.

(** The extents of an operand none of whose labels has been met are
    taken as they are. *)
Lemma merge_extents_fresh (env own : extents) :
  NoDup own.*1 -> (forall l, l ∈ own.*1 -> l ∉ env.*1) ->
  merge_extents env own = Ok (env ++ own).
Proof.
  revert env. induction own as [|[l n] own IH]; intros env Hnd Hfresh; cbn.
  - by rewrite app_nil_r.
  - cbn in Hnd. apply NoDup_cons in Hnd as [Hl Hnd].
    rewrite lookup_label_None by (apply Hfresh; by left).
    rewrite IH; [by rewrite <- app_assoc | done |].
    intros l' Hl'. rewrite fmap_app, not_elem_of_app. split; [apply Hfresh; by right|].
    cbn. apply not_elem_of_cons. split; [by intros -> | apply not_elem_of_nil].
Qed.

Lemma operand_extents_agree (E : nat -> nat) (env env' : extents) (ls s : list nat) :
  operand_extents env ls s = Ok env' ->
  Forall (fun ln => ln.2 = E ln.1) env ->
  (forall j l n, ls !! j = Some l -> s !! j = Some n -> n = E l) ->
  Forall (fun ln => ln.2 = E ln.1) env'.
Proof.
  revert env s. induction ls as [|l0 ls IH]; intros env [|n0 s] H Henv Hax; try done.
  - by injection H as <-.
  - cbn in H. destruct (negb (isalpha l0)); [done|].
    destruct (lookup_label l0 env) as [m|].
    + destruct (decide (m = n0)); [|done]. eapply IH; [done..|].
      intros j. apply (Hax (S j)).
    + eapply IH; [done| |intros j; apply (Hax (S j))].
      apply Forall_app. split; [done|]. constructor; [|constructor].
      cbn. by apply (Hax 0).
Qed.

Lemma merge_extents_agree (E : nat -> nat) (env own env' : extents) :
  merge_extents env own = Ok env' ->
  Forall (fun ln => ln.2 = E ln.1) env ->
  Forall (fun ln => ln.2 = E ln.1) own ->
  Forall (fun ln => ln.2 = E ln.1) env'.
Proof.
  revert env. induction own as [|[l n] own IH]; intros env H Henv Hown; cbn in H.
  - by injection H as <-.
  - inversion Hown as [|? ? Hn Hown']; subst. cbn in Hn.
    destruct (lookup_label l env) as [m|] eqn:Hl.
    + apply lookup_label_elem in Hl.
      assert (Hm : m = E l) by (rewrite Forall_forall in Henv; apply (Henv _ Hl)).
      unfold broadcast in H. rewrite decide_True in H by congruence.
      eapply IH; [done| |done].
      unfold set_extent. apply Forall_fmap. eapply Forall_impl; [exact Henv|].
      intros [l' k] Hk. cbn in *. case_decide; [done | done].
    + eapply IH; [done| |done]. apply Forall_app. split; [done|]. by constructor.
Qed.

Lemma foldM_extents_agree (E : nat -> nat) (operands : list (list nat * ndarray))
    (env env' : extents) :
  foldM (fun env op => own ← operand_extents [] op.1 (shape op.2); merge_extents env own)
    env operands = Ok env' ->
  Forall (fun ln => ln.2 = E ln.1) env ->
  (forall op j l n, op ∈ operands -> op.1 !! j = Some l -> shape op.2 !! j = Some n ->
     n = E l) ->
  Forall (fun ln => ln.2 = E ln.1) env'.
Proof.
  revert env. induction operands as [|op0 operands IH]; intros env H Henv Hax.
  - by injection H as <-.
  - cbn [foldM] in H. apply bind_Ok in H as (env1 & H1 & H).
    apply bind_Ok in H1 as (own & Hown & H1).
    eapply IH; [done| |].
    + eapply merge_extents_agree; [done..|].
      eapply operand_extents_agree; [done | constructor |].
      intros j l n. apply Hax. by left.
    + intros op j l n Hop. apply Hax. by right.
Qed.

Lemma output_extents_lookup (env : extents) (seen out s : list nat) (i l : nat) :
  output_extents env seen out = Ok s ->
  out !! i = Some l -> s !! i = lookup_label l env.
Proof.
  revert seen s i. induction out as [|l0 out IH]; intros seen s i H Hi; [done|].
  cbn in H. destruct (bool_decide (l0 ∈ seen)); [done|].
  destruct (lookup_label l0 env) as [n|] eqn:Hl0; [|done].
  apply bind_Ok in H as (s' & Hs' & [= <-]). destruct i as [|i]; cbn in *.
  - injection Hi as <-. done.
  - by eapply IH.
Qed.

(** When every operand axis that carries a label has the one extent
    [E] gives the label, nothing is stretched, and an output axis has
    the extent of its label. *)
Lemma einsum_shape (E : nat -> nat) (operands : list (list nat * ndarray)) (out : list nat)
    (a : ndarray) (i l : nat) :
  (forall op j l n, op ∈ operands -> op.1 !! j = Some l -> shape op.2 !! j = Some n ->
     n = E l) ->
  einsum operands out = Ok a ->
  out !! i = Some l ->
  shape a !! i = Some (E l).
Proof.
  unfold einsum. destruct operands as [|op0 operands]; [done|].
  intros Hax H Hi. apply bind_Ok in H as (env & Henv & H).
  apply bind_Ok in H as (s & Hs & [= <-]). cbn.
  rewrite (output_extents_lookup _ _ _ _ _ _ Hs Hi).
  apply (foldM_extents_agree E) in Henv; [|constructor|done].
  destruct (lookup_label l env) as [n|] eqn:Hl.
  - apply lookup_label_elem in Hl. rewrite Forall_forall in Henv.
    f_equal. exact (Henv _ Hl).
  - pose proof (output_extents_lookup _ _ _ _ _ _ Hs Hi) as Hsi. rewrite Hl in Hsi.
    apply lookup_ge_None in Hsi. apply lookup_lt_Some in Hi.
    pose proof (output_extents_length _ _ _ _ Hs). lia.
Qed.

(** The contraction of one array: an output axis has the extent of the
    axis of the array that carries its label. *)
Lemma einsum_shape_single (ls out : list nat) (a p : ndarray) (i j l n : nat) :
  einsum [(ls, a)] out = Ok p ->
  out !! i = Some l -> ls !! j = Some l -> shape a !! j = Some n ->
  shape p !! i = Some n.
Proof.
  unfold einsum. cbn [foldM]. intros H Hi Hl Hn.
  apply bind_Ok in H as (env0 & Henv & H). apply bind_Ok in Henv as (env & Henv & [= <-]).
  apply bind_Ok in Henv as (own & Hown & Henv). cbn [fst snd] in Hown.
  apply bind_Ok in H as (s & Hs & [= <-]). cbn.
  rewrite (output_extents_lookup _ _ _ _ _ _ Hs Hi).
  rewrite merge_extents_fresh in Henv.
  - injection Henv as <-.
    apply operand_extents_Ok in Hown as [_ Hnew]. by eapply Hnew.
  - eapply operand_extents_labels_NoDup; [done | constructor].
  - intros; apply not_elem_of_nil.
Qed.

Lemma label_extent_vertexObject (g : BayesianNet) (d : string) (w : _Vertex)
    (b : attributes) (l : nat) :
  vertexObject g d = Ok w -> attached w = Some b ->
  indexDict_getitem (indexDict g) d = Ok l ->
  label_extent g l = length (states b).
Proof.
  intros Hw Hb Hl. apply indexDict_getitem_Ok in Hl as (i & w' & -> & Hi & Hw').
  rewrite Hw in Hw'. injection Hw' as <-. unfold label_extent.
  replace (i + 97 - 97) with i by lia. by rewrite Hi, Hb.
Qed.

Lemma vertexObject_elem (g : BayesianNet) (v : _Vertex) :
  NoDup (name <$> vertexes g) -> v ∈ vertexes g -> vertexObject g (name v) = Ok v.
Proof.
  intros Hnd Hv. destruct (dict_getitem_present (vertexes g) (name v)) as [w Hw].
  { by apply list_elem_of_fmap_2. }
  unfold vertexObject. change (_vertexes g) with (vertexes g). rewrite Hw. f_equal.
  apply dict_getitem_Ok in Hw as [Hin Hname]. by eapply NoDup_names_eq.
Qed.

(** In a network built through the methods of the class whose tables
    have the dimensions of their dependencies, the axis of a node in a
    joint is as long as the node's list of states. *)
Lemma contraction_shape_at (g : BayesianNet) (vertexList : list _Vertex) (raw : ndarray)
    (i : nat) (v : _Vertex) (a : attributes) :
  reachable g -> extents_agree g ->
  Forall (fun v => v ∈ vertexes g) vertexList ->
  contraction g vertexList = Ok raw ->
  vertexList !! i = Some v -> attached v = Some a ->
  shape raw !! i = Some (length (states a)).
Proof.
  intros Hg Hagree Hall H Hv Ha. pose proof (NoDup_names_of_reachable g Hg) as Hnd.
  unfold contraction in H.
  apply bind_Ok in H as (probList & Hprob & H). apply bind_Ok in H as (rhs & Hrhs & H).
  apply bind_Ok in H as (lhsList & Hlhs & H).
  apply traverse_Ok_inv in Hprob. apply traverse_Ok_inv in Hrhs. apply traverse_Ok_inv in Hlhs.
  destruct (Forall2_lookup_l _ _ _ _ _ Hrhs Hv) as (l & Hl & Hlabel).
  rewrite Forall_forall in Hall.
  assert (Hin : v ∈ vertexes g) by (apply Hall; by eapply list_elem_of_lookup_2).
  rewrite <- (label_extent_vertexObject g (name v) v a l
                (vertexObject_elem g v Hnd Hin) Ha Hlabel).
  eapply (einsum_shape (label_extent g)); [|exact H|exact Hl].
  intros [ls table] j l' n Hop Hl' Hn. cbn in Hl', Hn.
  apply list_elem_of_lookup in Hop as [k Hk].
  apply lookup_zip_with_Some in Hk as (ls0 & table0 & [= <- <-] & Hls & Htable).
  destruct (Forall2_lookup_r _ _ _ _ _ Hlhs Hls) as (w & Hw & Hterm).
  destruct (Forall2_lookup_r _ _ _ _ _ Hprob Htable) as (w' & Hw' & Hp).
  rewrite Hw in Hw'. injection Hw' as <-.
  assert (Hwin : w ∈ vertexes g) by (apply Hall; by eapply list_elem_of_lookup_2).
  unfold getattr in Hp. destruct (attached w) as [b|] eqn:Hb; [|done]. injection Hp as <-.
  unfold lhsTerm in Hterm. apply bind_Ok in Hterm as (l0 & Hl0 & Hterm).
  unfold getattr in Hterm. rewrite Hb, bind_Ok_l in Hterm.
  apply bind_Ok in Hterm as (ls' & Hls' & [= <-]).
  destruct j as [|j]; cbn in Hl'.
  - injection Hl' as <-.
    destruct (tables_fit_of_reachable g Hg w b Hwin Hb) as [(rest & Hshape & _) _].
    rewrite Hshape in Hn. injection Hn as <-. symmetry.
    by apply (label_extent_vertexObject g (name w) w b l0 (vertexObject_elem g w Hnd Hwin)).
  - apply traverse_Ok_inv in Hls'.
    destruct (Forall2_lookup_r _ _ _ _ _ Hls' Hl') as (d & Hd & Hdl).
    destruct (Hagree w b j d Hwin Hb Hd) as (w2 & b2 & Hw2 & Hb2 & Hext).
    rewrite Hext in Hn. injection Hn as <-. symmetry.
    by apply (label_extent_vertexObject g d w2 b2 l').
Qed.

Lemma contraction_shape (g : BayesianNet) (raw : ndarray) (i : nat) (v : _Vertex)
    (a : attributes) :
  reachable g -> extents_agree g ->
  contraction g (vertexes g) = Ok raw ->
  vertexes g !! i = Some v -> attached v = Some a ->
  shape raw !! i = Some (length (states a)).
Proof.
  intros Hg Hagree. apply contraction_shape_at; [done..|]. by apply Forall_forall.
Qed.

Lemma list_index_Ok (l : list string) (x : string) :
  x ∈ l -> exists j, list_index l x = Ok j /\ j < length l.
Proof.
  induction l as [|y l IH]; intros Hin; [by apply elem_of_nil in Hin|].
  cbn. destruct (decide (y = x)) as [->|Hne].
  - exists 0. split; [done | cbn; lia].
  - apply elem_of_cons in Hin as [->|Hin]; [done|].
    destruct (IH Hin) as (j & -> & Hj). exists (S j). split; [done | cbn; lia].
Qed.

Lemma list_index_lt (l : list string) (x : string) (j : nat) :
  list_index l x = Ok j -> j < length l.
Proof.
  revert j. induction l as [|y l IH]; intros j; cbn; [done|].
  destruct (decide (y = x)); [intros [= <-]; lia|].
  destruct (list_index l x) as [j'|] eqn:Hj; [|done]. intros [= <-].
  specialize (IH j' eq_refl). lia.
Qed.

Lemma getitem_check_Ok (s : list nat) (ix : list index) :
  length ix <= length s ->
  (forall i j n, ix !! i = Some (int j) -> s !! i = Some n -> j < n) ->
  getitem_check s ix = Ok ().
Proof.
  revert ix. induction s as [|n s IH]; intros [|[|j] ix] Hlen Hb; cbn in *; try done; try lia.
  - apply IH; [lia|]. intros i. apply (Hb (S i)).
  - rewrite decide_True by (by apply (Hb 0)).
    apply IH; [lia|]. intros i. apply (Hb (S i)).
Qed.

Lemma extents_agree_vertexes (g g' : BayesianNet) :
  vertexes g' = vertexes g -> extents_agree g -> extents_agree g'.
Proof.
  unfold extents_agree, vertexObject, vertexes. intros Heq Hagree. rewrite Heq. exact Hagree.
Qed.

Lemma extents_agree_sprinkler : extents_agree Examples.sprinkler.
Proof.
  intros v a j d Hv Ha Hd. vm_compute in Hv.
  repeat (apply elem_of_cons in Hv as [->|Hv]); [..|by apply elem_of_nil in Hv];
    cbn in Ha; injection Ha as <-;
    (destruct j as [|[|j]]; cbn in Hd; try discriminate Hd); injection Hd as <-;
    eexists _, _; (split_and!; [vm_compute; reflexivity | reflexivity | reflexivity]).
Qed.

Lemma reachable_empty_axis : reachable empty_axis.
Proof.
  unfold empty_axis, addChild, addNode.
  repeat first [ apply reachable_addProbabilityTable | apply reachable_addEdge
               | apply reachable_addVertex | apply reachable__init__ ].
Qed.

Lemma reachable_stretched : reachable stretched.
Proof.
  unfold stretched, addChild, addNode.
  repeat first [ apply reachable_addProbabilityTable | apply reachable_addEdge
               | apply reachable_addVertex | apply reachable__init__ ].
Qed.

Lemma foldM_clamp_valid (g : BayesianNet) (evidence : list (string * string))
    (dimList : list index) :
  Forall (valid_entry g) evidence ->
  length dimList = length (vertexes g) ->
  exists dimList', foldM (clamp g (indexDict g)) dimList evidence = Ok dimList'.
Proof.
  intros Hvalid. revert dimList.
  induction Hvalid as [|[n s] evidence (v & a & Hv & Ha & Hs) _ IH]; intros dimList Hlen.
  - by eexists.
  - cbn [foldM]. cbn in Hv, Hs.
    assert (exists dimList1, clamp g (indexDict g) dimList (n, s) = Ok dimList1
                             /\ length dimList1 = length dimList) as (dimList1 & -> & Hlen1).
    { unfold clamp. pose proof Hv as Hv'. unfold vertexObject in Hv'.
      apply dict_getitem_Ok in Hv' as [Hin Hname].
      destruct (indexDict_getitem_total (vertexes g) 0 v Hin) as [l Hl].
      change (imap _ (vertexes g)) with (indexDict g) in Hl. rewrite Hname in Hl.
      rewrite Hl, bind_Ok_l.
      apply indexDict_getitem_Ok in Hl as (i & w & -> & Hi & _).
      rewrite Hv, bind_Ok_l. unfold getattr. rewrite Ha, bind_Ok_l.
      destruct (list_index_Ok _ _ Hs) as (j & -> & _). rewrite bind_Ok_l.
      unfold list_setitem. replace (i + 97 - 97) with i by lia.
      apply lookup_lt_Some in Hi. rewrite decide_True by lia.
      eexists. split; [done|]. by rewrite length_insert. }
    rewrite bind_Ok_l. apply IH. lia.
Qed.

(** In a network built through the methods of the class whose tables
    have the dimensions of their dependencies, an evidence list of valid
    entries never makes [jointProbability] raise: when the contraction
    gives the raw joint, the index tuple is built, every state index
    lies within its axis, and an array is returned. Without the
    agreement of the dimensions the contraction may stretch or empty an
    axis, and the state index may then lie outside it
    ([jointProbability_empty_axis]). *)
Theorem jointProbability_valid_evidence (g : BayesianNet)
    (vertexList : option (list _Vertex)) (raw : ndarray) :
  reachable g -> extents_agree g ->
  Forall (valid_entry g) (evidenceList g) ->
  contraction g (queried g vertexList) = Ok raw ->
  exists p, jointProbability g vertexList = Ok p.
Proof.
  intros Hg Hagree Hvalid Hraw. unfold jointProbability. rewrite Hraw, bind_Ok_l.
  case_decide as Hev; [by eexists|].
  rewrite queried_evidence in Hraw by done.
  pose proof (contraction_ndim _ _ _ Hraw) as Hndim.
  set (jointProb := divide raw (sum raw)).
  destruct (foldM_clamp_valid g (evidenceList g) (replicate (ndim jointProb) slice_None))
    as [dimList Hdim]; [done | by rewrite length_replicate |].
  unfold evidence_dimList. rewrite Hdim, bind_Ok_l.
  apply foldM_clamp_Ok in Hdim as (Hlen & Hkeep & Hset).
  rewrite length_replicate in Hlen.
  unfold getitem. rewrite getitem_check_Ok; [by eexists | |].
  - cbn. unfold ndim in Hlen. cbn in Hlen. lia.
  - intros i j n Hi Hn. cbn in Hn.
    destruct (vertexes g !! i) as [v|] eqn:Hv.
    2: { apply lookup_ge_None in Hv. apply lookup_lt_Some in Hi.
         unfold jointProb, ndim in *. cbn in Hlen. lia. }
    destruct (decide (name v ∈ (evidenceList g).*1)) as [Hin|Hnin].
    + apply elem_of_last_split in Hin as (pre & s & post & Heq & Hpost).
      destruct (Hset pre (name v) s post Heq Hpost)
        as (i' & v' & a & j' & Hl & Hv' & _ & Ha & Hj & Hi').
      rewrite (indexDict_getitem_lookup g i v (NoDup_names_of_reachable g Hg) Hv) in Hl.
      injection Hl as Hl. assert (i' = i) as -> by lia.
      rewrite Hi in Hi'. injection Hi' as <-.
      rewrite (contraction_shape g raw i v' a Hg Hagree Hraw Hv' Ha) in Hn. injection Hn as <-.
      by eapply list_index_lt.
    + rewrite (Hkeep i v Hv Hnin) in Hi. by apply lookup_replicate in Hi as [? _].
Qed.

Lemma jointProbability_valid_evidence_witness :
  let g := self (setEvidence [("rain", "T"); ("cloudy", "F")] Examples.sprinkler) in
  exists p, jointProbability g (Some []) = Ok p.
Proof.
  intros g. eapply (jointProbability_valid_evidence g (Some [])).
  - apply reachable_setEvidence. exact reachable_sprinkler.
  - apply (extents_agree_vertexes Examples.sprinkler); [reflexivity|].
    exact extents_agree_sprinkler.
  - apply validate_valid. vm_compute. reflexivity.
  - vm_compute. reflexivity.
Defined.

(** The agreement of the dimensions is needed: the child table of
    [empty_axis] has no entry along the axis of its parent, the
    contraction gives a joint with an empty axis, and the index of the
    parent's one state lies outside it. *)
Lemma jointProbability_empty_axis :
  let g := self (setEvidence [("P", "on")] empty_axis) in
  reachable g /\ Forall (valid_entry g) (evidenceList g) /\
  contraction g (queried g None) = Ok (array [0; 2] []) /\
  exists msg, jointProbability g None = Raise (IndexError msg).
Proof.
  intros g. split_and!.
  - apply reachable_setEvidence. exact reachable_empty_axis.
  - apply validate_valid. vm_compute. reflexivity.
  - vm_compute. reflexivity.
  - eexists. vm_compute. reflexivity.
Qed.

(** ** The marginal has one entry per state *)

Lemma evidence_dimList_slice (g : BayesianNet) (n0 : nat) (dimList : list index)
    (i : nat) (v : _Vertex) (d : index) :
  NoDup (name <$> vertexes g) ->
  foldM (clamp g (indexDict g)) (replicate n0 slice_None) (evidenceList g) = Ok dimList ->
  vertexes g !! i = Some v -> dimList !! i = Some d ->
  d = slice_None <-> name v ∉ (evidenceList g).*1.
Proof.
  intros Hnd Hdim Hv Hd. apply foldM_clamp_Ok in Hdim as (Hlen & Hkeep & Hset). split.
  - intros -> Hin. apply elem_of_last_split in Hin as (pre & s & post & Heq & Hpost).
    destruct (Hset pre (name v) s post Heq Hpost) as (i' & v' & a & j & Hl & _ & _ & _ & _ & Hi').
    rewrite (indexDict_getitem_lookup g i v Hnd Hv) in Hl. injection Hl as Hl.
    assert (i' = i) as -> by lia. congruence.
  - intros Hnin. rewrite (Hkeep i v Hv Hnin) in Hd.
    by apply lookup_replicate in Hd as [-> _].
Qed.

Lemma filter_Forall2_pointwise {A B : Type} (R : A -> B -> Prop) (P : A -> Prop)
    (Q : B -> Prop) `{!forall x, Decision (P x)} `{!forall y, Decision (Q y)}
    (l1 : list A) (l2 : list B) :
  Forall2 R l1 l2 -> (forall x y, R x y -> (P x <-> Q y)) ->
  Forall2 R (filter P l1) (filter Q l2).
Proof.
  intros HF HR. induction HF as [|x y l1 l2 Hxy _ IH]; [constructor|].
  rewrite !filter_cons. pose proof (HR x y Hxy).
  destruct (decide (P x)), (decide (Q y)); try tauto. by constructor.
Qed.

Lemma filter_all {A : Type} (P : A -> Prop) `{!forall x, Decision (P x)} (l : list A) :
  (forall x, P x) -> filter P l = l.
Proof.
  intros HP. induction l as [|x l IH]; [done|].
  rewrite filter_cons_True by done. by rewrite IH.
Qed.

(** The shape of the joint under evidence: the axes of the nodes that
    no entry names, each as long as its node's list of states. *)
Lemma jointProbability_shape_evidence (g : BayesianNet) (p : ndarray) :
  reachable g -> extents_agree g -> evidenceList g ≠ [] ->
  jointProbability g (Some (vertexes g)) = Ok p ->
  Forall2 (fun n v => forall a, attached v = Some a -> n = length (states a))
    (shape p) (filter (fun v => name v ∉ (evidenceList g).*1) (vertexes g)).
Proof.
  intros Hg Hagree Hev H. pose proof (NoDup_names_of_reachable g Hg) as Hnd.
  unfold jointProbability in H. rewrite queried_evidence in H by done.
  apply bind_Ok in H as (raw & Hraw & H). rewrite decide_False in H by done.
  apply bind_Ok in H as (dimList & Hdim & H).
  apply bind_Ok in H as (slicedProb & Hget & [= <-]).
  pose proof (contraction_ndim _ _ _ Hraw) as Hndim. unfold evidence_dimList in Hdim.
  pose proof (foldM_clamp_Ok _ _ _ _ Hdim) as (Hlen & _ & _).
  rewrite length_replicate in Hlen. change (ndim (divide raw (sum raw))) with (ndim raw) in *.
  apply getitem_Ok in Hget as [Hshape _]. cbn [shape divide] in *. rewrite Hshape.
  rewrite getitem_shape_kept by (unfold ndim in *; lia).
  apply Forall2_fmap_l.
  eapply Forall2_impl.
  - apply (filter_Forall2_pointwise
             (fun dn v => (dn.1 = slice_None <-> name v ∉ (evidenceList g).*1) /\
                          forall a, attached v = Some a -> dn.2 = length (states a))).
    + apply Forall2_same_length_lookup. split.
      { rewrite length_zip_with. unfold ndim in *. lia. }
      intros i [d n] v Hzip Hv.
      apply lookup_zip_with_Some in Hzip as (d' & n' & [= -> ->] & Hd & Hn). cbn. split.
      * by eapply evidence_dimList_slice.
      * intros a Ha. rewrite (contraction_shape g raw i v a Hg Hagree Hraw Hv Ha) in Hn.
        congruence.
    + intros dn v [Hiff _]. done.
  - intros dn v [_ Hn]. done.
Qed.

(** In a network built through the methods of the class whose tables
    have the dimensions of their dependencies, the marginal of a node,
    whenever one is returned, is an array with one axis that is as long
    as the node's list of states. Without the agreement of the
    dimensions the contraction stretches an axis of extent one to the
    extent a child's table has for it, and the marginal has more entries
    than the node has states ([marginalProbability_stretched]). *)
Theorem marginalProbability_shape (g : BayesianNet) (uName : string) (total : bool)
    (p : ndarray) (u : _Vertex) (a : attributes) :
  reachable g -> extents_agree g ->
  vertexObject g uName = Ok u -> attached u = Some a ->
  marginalProbability g uName total = Ok p ->
  shape p = [length (states a)].
Proof.
  intros Hg Hagree Hu Ha H.
  pose proof (marginalProbability_one_axis g uName total p Hg H) as Hndim.
  assert (Hhead : shape p !! 0 = Some (length (states a))).
  2: { unfold ndim in Hndim. destruct (shape p) as [|n [|? ?]]; try done.
       cbn in Hhead. by injection Hhead as ->. }
  pose proof Hu as Hu'. unfold vertexObject in Hu'. apply dict_getitem_Ok in Hu' as [Hin Hname].
  unfold marginalProbability in H. rewrite Hu, bind_Ok_l in H.
  unfold getattr in H. rewrite Ha, bind_Ok_l in H.
  case_decide as Hfast.
  - injection H as <-. by destruct (tables_fit_of_reachable g Hg u a Hin Ha) as [(rest & -> & _) _].
  - apply bind_Ok in H as (vertexList & HvL & H). apply bind_Ok in H as (jointProb & HJ & H).
    apply bind_Ok in H as (lhs & Hlhs & H). apply bind_Ok in H as (rhs & Hrhs & H).
    apply traverse_Ok_inv in Hlhs.
    destruct (decide (evidenceList g = [])) as [Hev|Hev].
    + (* no evidence: the joint of [vertexList], all of whose axes are kept *)
      rewrite Hev in Hlhs. rewrite filter_all in Hlhs by (intros; apply not_elem_of_nil).
      assert (exists k, vertexList !! k = Some u /\ Forall (fun v => v ∈ vertexes g) vertexList)
        as (k & Hk & Hall).
      { destruct total.
        - injection HvL as <-. apply list_elem_of_lookup in Hin as [k Hk].
          exists k. split; [done|]. by apply Forall_forall.
        - apply bind_Ok in HvL as (vs & Hvs & [= <-]). exists 0. split; [done|].
          constructor; [done|]. apply traverse_Ok_inv in Hvs.
          apply Forall_forall. intros v Hv. apply list_elem_of_lookup in Hv as [j Hj].
          destruct (Forall2_lookup_r _ _ _ _ _ Hvs Hj) as (d & _ & Hd).
          unfold vertexObject in Hd. by apply dict_getitem_Ok in Hd as [? _]. }
      unfold jointProbability in HJ. apply bind_Ok in HJ as (raw & Hraw & HJ).
      rewrite decide_True in HJ by done. injection HJ as <-.
      assert (queried g (Some vertexList) = vertexList) as Hq.
      { unfold queried. by rewrite decide_True. }
      rewrite Hq in Hraw.
      destruct (Forall2_lookup_l _ _ _ _ _ Hlhs Hk) as (l & Hl & Hlabel).
      rewrite Hname, Hrhs in Hlabel. injection Hlabel as <-.
      eapply (einsum_shape_single _ _ _ _ 0 k rhs _ H); [done | done |].
      cbn. by eapply contraction_shape_at.
    + (* evidence: the sliced joint of the full network *)
      cbn in HvL. injection HvL as <-.
      pose proof (jointProbability_shape_evidence g jointProb Hg Hagree Hev HJ) as Hshape.
      destruct (decide (uName ∈ (evidenceList g).*1)) as [Hclamped|Hfree].
      { destruct (marginalProbability_clamped_raises g uName total Hclamped) as [e He].
        exfalso. revert He. unfold marginalProbability. rewrite Hu, bind_Ok_l.
        unfold getattr. rewrite Ha, bind_Ok_l. rewrite decide_False by done.
        rewrite (decide_False (P := evidenceList g = [])) by done. rewrite bind_Ok_l.
        rewrite HJ, bind_Ok_l.
        destruct (traverse_Ok (fun v => indexDict_getitem (indexDict g) (name v))
                    (filter (fun v => name v ∉ (evidenceList g).*1) (vertexes g)))
          as (lhs' & -> & HF').
        { intros v Hv. apply list_elem_of_filter in Hv as [_ Hv].
          by apply (indexDict_getitem_total (vertexes g) 0). }
        rewrite bind_Ok_l, Hrhs, bind_Ok_l.
        assert (lhs' = lhs) as ->.
        { clear -HF' Hlhs. revert lhs Hlhs. induction HF' as [|???? Hx _ IH]; intros lhs Hlhs.
          - by inversion Hlhs.
          - inversion Hlhs as [|???? Hy Hrest]; subst. f_equal; [congruence | by apply IH]. }
        by rewrite H. }
      assert (Hu' : u ∈ filter (fun v => name v ∉ (evidenceList g).*1) (vertexes g)).
      { apply list_elem_of_filter. split; [by rewrite Hname | done]. }
      apply list_elem_of_lookup in Hu' as [k Hk].
      destruct (Forall2_lookup_l _ _ _ _ _ Hlhs Hk) as (l & Hl & Hlabel).
      rewrite Hname, Hrhs in Hlabel. injection Hlabel as <-.
      destruct (Forall2_lookup_r _ _ _ _ _ Hshape Hk) as (n & Hn & Hfit).
      eapply (einsum_shape_single _ _ _ _ 0 k rhs _ H); [done | done |].
      by rewrite Hn, (Hfit a Ha).
Qed.

Lemma marginalProbability_shape_witness :
  let g := self (setEvidence [("rain", "T")] Examples.sprinkler) in
  exists p, marginalProbability g "grass wet" true = Ok p /\ shape p = [2].
Proof.
  intros g.
  eassert (Hp : marginalProbability g "grass wet" true = Ok _) by (vm_compute; reflexivity).
  eassert (Hu : vertexObject g "grass wet" = Ok _) by (vm_compute; reflexivity).
  match type of Hu with _ = Ok ?u =>
    eassert (Ha : attached u = Some _) by reflexivity
  end.
  eexists. split; [exact Hp|].
  exact (marginalProbability_shape g "grass wet" true _ _ _
           (reachable_setEvidence _ _ reachable_sprinkler)
           (extents_agree_vertexes Examples.sprinkler g eq_refl extents_agree_sprinkler)
           Hu Ha Hp).
Defined.

(** The agreement of the dimensions is needed: in [stretched] the
    parent has one state and the table of the child has two entries
    along the parent's axis; under evidence on the child the marginal of
    the parent has two entries. *)
Lemma marginalProbability_stretched :
  let g := self (setEvidence [("C", "T")] stretched) in
  reachable g /\
  (exists u a, vertexObject g "P" = Ok u /\ attached u = Some a /\ length (states a) = 1) /\
  exists p, marginalProbability g "P" true = Ok p /\ shape p = [2].
Proof.
  intros g. split_and!.
  - apply reachable_setEvidence. exact reachable_stretched.
  - eexists _, _. split_and!; [vm_compute; reflexivity | reflexivity | reflexivity].
  - eexists. split; [vm_compute; reflexivity | reflexivity].
Qed.

(** ** Summing out: the contraction of one array to one of its axes *)

Lemma Qsum_app (l k : list Q) : (Qsum (l ++ k) == Qsum l + Qsum k)%Q.
Proof.
  unfold Qsum. induction l as [|x l IH]; cbn; [ring|]. rewrite IH. ring.
Qed.

Lemma Qsum_ext {A : Type} (f g : A -> Q) (l : list A) :
  (forall x, x ∈ l -> (f x == g x)%Q) -> (Qsum (f <$> l) == Qsum (g <$> l))%Q.
Proof.
  unfold Qsum. induction l as [|x l IH]; intros H; cbn; [reflexivity|].
  rewrite (H x) by by left. rewrite IH; [reflexivity|]. intros y Hy. apply H. by right.
Qed.

Lemma Qsum_bind {A B : Type} (f : B -> Q) (g : A -> list B) (l : list A) :
  (Qsum (f <$> (l ≫= g)) == Qsum ((fun x => Qsum (f <$> g x)) <$> l))%Q.
Proof.
  induction l as [|x l IH]; cbn; [reflexivity|].
  rewrite fmap_app, Qsum_app, IH. reflexivity.
Qed.

Lemma Qsum_plus {A : Type} (f g : A -> Q) (l : list A) :
  (Qsum ((fun x => f x + g x) <$> l) == Qsum (f <$> l) + Qsum (g <$> l))%Q.
Proof.
  unfold Qsum. induction l as [|x l IH]; cbn; [ring|]. rewrite IH. ring.
Qed.

Lemma Qsum_zero {A : Type} (l : list A) : (Qsum ((fun _ => 0) <$> l) == 0)%Q.
Proof.
  unfold Qsum. induction l as [|x l IH]; cbn; [reflexivity|]. rewrite IH. ring.
Qed.

Lemma Qsum_swap {A B : Type} (h : A -> B -> Q) (l1 : list A) (l2 : list B) :
  (Qsum ((fun i => Qsum ((fun j => h i j) <$> l2)) <$> l1)
   == Qsum ((fun j => Qsum ((fun i => h i j) <$> l1)) <$> l2))%Q.
Proof.
  induction l1 as [|i l1 IH].
  - cbn. symmetry. apply Qsum_zero.
  - change (Qsum ((fun i => Qsum ((fun j => h i j) <$> l2)) <$> i :: l1))
      with (Qsum ((fun j => h i j) <$> l2)
            + Qsum ((fun i => Qsum ((fun j => h i j) <$> l2)) <$> l1))%Q.
    rewrite IH, <- Qsum_plus. apply Qsum_ext. intros j _. reflexivity.
Qed.

Lemma Qsum_assignments_cons (F : list (nat * nat) -> Q) (l n : nat) (env : extents) :
  (Qsum (F <$> assignments ((l, n) :: env))
   == Qsum ((fun i => Qsum ((fun a => F ((l, i) :: a)) <$> assignments env)) <$> seq 0 n))%Q.
Proof.
  cbn [assignments]. rewrite Qsum_bind. apply Qsum_ext. intros i _.
  by rewrite <- list_fmap_compose.
Qed.

(** The sum over all assignments does not depend on where a label
    stands among the labels. *)
Lemma Qsum_assignments_move (F : list (nat * nat) -> Q) (pre post : extents) (l n : nat) :
  by_lookup F -> l ∉ pre.*1 ->
  (Qsum (F <$> assignments (pre ++ (l, n) :: post))
   == Qsum (F <$> assignments ((l, n) :: pre ++ post)))%Q.
Proof.
  revert F. induction pre as [|[ly ny] pre IH]; intros F HF Hl; [reflexivity|].
  cbn in Hl. apply not_elem_of_cons in Hl as [Hne Hl].
  change (((ly, ny) :: pre) ++ (l, n) :: post) with ((ly, ny) :: (pre ++ (l, n) :: post)).
  rewrite Qsum_assignments_cons.
  transitivity
    (Qsum ((fun i => Qsum ((fun j =>
       Qsum ((fun a => F ((ly, i) :: (l, j) :: a)) <$> assignments (pre ++ post)))
         <$> seq 0 n)) <$> seq 0 ny)).
  { apply Qsum_ext. intros i _.
    assert (HFi : by_lookup (fun a => F ((ly, i) :: a))).
    { intros b b' Hb. apply HF. intros l'. cbn. by destruct (decide (l' = ly)). }
    rewrite (IH (fun a => F ((ly, i) :: a)) HFi Hl).
    apply (Qsum_assignments_cons (fun a => F ((ly, i) :: a))). }
  rewrite (Qsum_swap (fun i j =>
    Qsum ((fun a => F ((ly, i) :: (l, j) :: a)) <$> assignments (pre ++ post)))).
  rewrite Qsum_assignments_cons. apply Qsum_ext. intros j _.
  change (((ly, ny) :: pre) ++ post) with ((ly, ny) :: (pre ++ post)).
  rewrite (Qsum_assignments_cons (fun a => F ((l, j) :: a))).
  apply Qsum_ext. intros i _. apply Qsum_ext. intros a _. apply HF.
  intros l'. cbn. destruct (decide (l' = ly)), (decide (l' = l)); congruence.
Qed.

Lemma fmap_bind_list {A B C : Type} (f : B -> C) (g : A -> list B) (l : list A) :
  f <$> (l ≫= g) = l ≫= (fun x => f <$> g x).
Proof.
  induction l as [|x l IH]; cbn; [done|]. by rewrite fmap_app, IH.
Qed.

(** The assignments of the labels of an operand are the multi-indices
    of the operand, in the same order. *)
Lemma assignments_zip_ndindex (ls s : list nat) :
  length ls = length s ->
  (fun a => a.*2) <$> assignments (zip ls s) = ndindex s.
Proof.
  revert s. induction ls as [|l ls IH]; intros [|n s] Hlen; try done.
  cbn [zip zip_with assignments ndindex]. rewrite fmap_bind_list.
  apply list_bind_ext; [|done]. intros i.
  rewrite <- list_fmap_compose, <- (IH s) by (cbn in Hlen; lia).
  by rewrite <- list_fmap_compose.
Qed.

Lemma seq_bind_blocks (m a n : nat) :
  seq a n ≫= (fun i => seq (i * m) m) = seq (a * m) (n * m).
Proof.
  revert a. induction n as [|n IH]; intros a; cbn; [done|].
  rewrite IH, seq_app. do 2 f_equal. lia.
Qed.

Lemma ravel_ndindex (s : list nat) : ravel s <$> ndindex s = seq 0 (size s).
Proof.
  induction s as [|n s IH]; [done|].
  replace (seq 0 (size (n :: s))) with (seq 0 n ≫= (fun i => seq (i * size s) (size s)))
    by (by rewrite seq_bind_blocks).
  cbn [ndindex]. rewrite fmap_bind_list. apply list_bind_ext; [|done]. intros i.
  rewrite <- list_fmap_compose.
  transitivity ((fun r => i * size s + r) <$> (ravel s <$> ndindex s)).
  { by rewrite <- list_fmap_compose. }
  rewrite IH. rewrite fmap_add_seq. f_equal. lia.
Qed.

(** An array whose buffer has the length its shape asks for is read in
    full, in order, by running through its multi-indices. *)
Lemma item_ndindex (a : ndarray) :
  length (data a) = size (shape a) ->
  item a <$> ndindex (shape a) = data a.
Proof.
  intros Hlen. unfold item.
  rewrite (list_fmap_compose (ravel (shape a)) (fun r => nth r (data a) 0%Q)).
  rewrite ravel_ndindex, <- Hlen. apply list_eq. intros i.
  rewrite list_lookup_fmap. destruct (decide (i < length (data a))) as [Hi|Hi].
  - rewrite lookup_seq_lt by done. cbn. rewrite nth_lookup.
    destruct (lookup_lt_is_Some_2 _ _ Hi) as [x ->]. done.
  - rewrite lookup_seq_ge by lia. symmetry. apply lookup_ge_None. lia.
Qed.

Lemma Ok_inj {A : Type} (a b : A) : Ok a = Ok b -> a = b.
Proof. by intros [= ->]. Qed.

Lemma operand_extents_NoDup (env env' : extents) (ls s : list nat) :
  NoDup ls -> (forall l, l ∈ ls -> l ∉ env.*1) ->
  operand_extents env ls s = Ok env' ->
  env' = env ++ zip ls s /\ length ls = length s.
Proof.
  revert env s. induction ls as [|l0 ls IH]; intros env [|n s] Hnd Hfresh H; try done.
  - injection H as <-. by rewrite app_nil_r.
  - cbn in H. destruct (negb (isalpha l0)); [done|].
    apply NoDup_cons in Hnd as [Hl0 Hnd].
    rewrite lookup_label_None in H by (apply Hfresh; by left).
    apply IH in H as [-> Hlen]; [|done|].
    + split; [by rewrite <- app_assoc | cbn; lia].
    + intros l Hl. rewrite fmap_app, not_elem_of_app. split; [apply Hfresh; by right|].
      cbn. apply not_elem_of_cons. split; [by intros -> | apply not_elem_of_nil].
Qed.

Lemma lookup_label_zip_split (l n : nat) (ls s : list nat) :
  lookup_label l (zip ls s) = Some n ->
  exists pre post spre spost,
    ls = pre ++ l :: post /\ s = spre ++ n :: spost /\
    length pre = length spre /\ l ∉ pre.
Proof.
  revert s. induction ls as [|l0 ls IH]; intros [|n0 s] H; try done.
  cbn in H. destruct (decide (l = l0)) as [->|Hne].
  - injection H as ->. exists [], ls, [], s. split_and!; try done. apply not_elem_of_nil.
  - destruct (IH _ H) as (pre & post & spre & spost & -> & -> & Hlen & Hpre).
    exists (l0 :: pre), post, (n0 :: spre), spost. split_and!; try done.
    + cbn. lia.
    + apply not_elem_of_cons. by split.
Qed.

Lemma filter_all_in {A : Type} (P : A -> Prop) `{!forall x, Decision (P x)} (l : list A) :
  (forall x, x ∈ l -> P x) -> filter P l = l.
Proof.
  induction l as [|x l IH]; intros HP; [done|].
  rewrite filter_cons_True by (apply HP; by left). rewrite IH; [done|].
  intros y Hy. apply HP. by right.
Qed.

Lemma filter_zip_other (rhs : nat) (ls s : list nat) :
  rhs ∉ ls -> filter (fun ln : nat * nat => ln.1 ∉ [rhs]) (zip ls s) = zip ls s.
Proof.
  intros Hnin. apply filter_all_in. intros [l n] Hin. cbn.
  apply elem_of_zip_l in Hin. intros Hl. apply list_elem_of_singleton in Hl as ->. done.
Qed.

Lemma operand_item_ext (b b' : list (nat * nat)) (op : list nat * ndarray) :
  (forall l, lookup_label l b = lookup_label l b') ->
  operand_item b op = operand_item b' op.
Proof.
  intros Hb. unfold operand_item. f_equal.
  generalize (shape op.2). induction op.1 as [|l ls IH]; intros [|n s]; cbn; try done.
  rewrite Hb. f_equal. apply IH.
Qed.

(** Under an assignment of the distinct labels of an array, the array
    is read at the indices of the assignment. *)
Lemma operand_index_assignment (ls s : list nat) (b : list (nat * nat)) :
  NoDup ls -> length ls = length s -> b ∈ assignments (zip ls s) ->
  zip_with (fun l n => if decide (n = 1) then 0 else default 0 (lookup_label l b)) ls s
  = b.*2.
Proof.
  revert s b. induction ls as [|l ls IH]; intros [|n s] b Hnd Hlen Hb; try done.
  - cbn in Hb. by apply list_elem_of_singleton in Hb as ->.
  - cbn [zip zip_with assignments] in Hb. apply list_elem_of_bind in Hb as (i & Hb & Hi).
    apply list_elem_of_fmap in Hb as (b' & -> & Hb').
    apply NoDup_cons in Hnd as [Hl Hnd]. cbn in Hlen. cbn.
    rewrite (decide_True (P := l = l)) by done. f_equal.
    + case_decide as Hn; [|done]. subst n. apply elem_of_seq in Hi. cbn. lia.
    + rewrite <- (IH s b') by (done || lia).
      clear -Hl. revert s. induction ls as [|l' ls IH]; intros [|n s]; cbn; try done.
      apply not_elem_of_cons in Hl as [Hne Hl].
      rewrite (decide_False (P := l' = l)) by done. by rewrite IH.
Qed.

(** The contraction of one array to one of its axes keeps the total:
    the elements of the result are sums over disjoint parts of the
    array that together make up all of it. *)
Lemma einsum_sum (lhs : list nat) (a p : ndarray) (rhs : nat) :
  NoDup lhs ->
  length (data a) = size (shape a) ->
  einsum [(lhs, a)] [rhs] = Ok p ->
  (sum p == sum a)%Q.
Proof.
  intros Hnd Hwf H. unfold einsum in H. cbn [foldM] in H.
  apply bind_Ok in H as (env0 & Henv & H). apply bind_Ok in Henv as (env & Henv & [= <-]).
  apply bind_Ok in Henv as (own & Hown & Henv). cbn [fst snd] in Hown.
  apply operand_extents_NoDup in Hown as [-> Hlen]; [|done|intros; apply not_elem_of_nil].
  rewrite app_nil_l in Henv.
  rewrite merge_extents_fresh in Henv;
    [|by rewrite fst_zip by lia|intros; apply not_elem_of_nil].
  apply Ok_inj in Henv. subst env. rewrite app_nil_l in H. cbn [output_extents] in H.
  rewrite bool_decide_eq_false_2 in H by apply not_elem_of_nil.
  destruct (lookup_label rhs (zip lhs (shape a))) as [n|] eqn:Hrhs; [|done].
  rewrite !bind_Ok_l in H. apply Ok_inj in H. subst p.
  destruct (lookup_label_zip_split _ _ _ _ Hrhs)
    as (pre & post & spre & spost & Hlhs & Hshape & Hlenpre & Hpre).
  assert (Hpost : rhs ∉ post).
  { rewrite Hlhs in Hnd. apply NoDup_app in Hnd as (_ & _ & Hnd).
    by apply NoDup_cons in Hnd as [? _]. }
  set (F := fun b : list (nat * nat) => operand_item b (lhs, a)).
  assert (HF : by_lookup F).
  { intros b b' Hb. unfold F. by rewrite (operand_item_ext b b'). }
  assert (Hzip : zip lhs (shape a) = zip pre spre ++ (rhs, n) :: zip post spost).
  { rewrite Hlhs, Hshape. by rewrite zip_with_app. }
  assert (Hsummed : filter (fun ln : nat * nat => ln.1 ∉ [rhs]) (zip lhs (shape a))
                    = zip pre spre ++ zip post spost).
  { rewrite Hzip, filter_app, filter_cons_False, !filter_zip_other; [done..|].
    cbn. intros Hn. apply Hn. by left. }
  unfold sum, fromfunction. cbn [data]. unfold extents. rewrite Hsummed.
  transitivity (Qsum (F <$> assignments ((rhs, n) :: zip pre spre ++ zip post spost))).
  { rewrite Qsum_assignments_cons. cbn [ndindex]. rewrite Qsum_bind.
    apply Qsum_ext. intros i _. cbn [fmap list_fmap]. unfold Qsum at 1. cbn [foldr].
    rewrite Qplus_0_r. apply Qsum_ext. intros b _. unfold Qprod, F. cbn. ring. }
  rewrite <- Qsum_assignments_move; [|done|].
  2: { intros Hin. apply Hpre. apply list_elem_of_fmap in Hin as ([l k] & -> & Hin).
       by apply elem_of_zip_l in Hin. }
  rewrite <- Hzip.
  transitivity (Qsum ((fun b : list (nat * nat) => item a b.*2)
                        <$> assignments (zip lhs (shape a)))).
  { apply Qsum_ext. intros b Hb. unfold F, operand_item. cbn [fst snd].
    by rewrite (operand_index_assignment lhs (shape a) b). }
  replace ((fun b : list (nat * nat) => item a b.*2) <$> assignments (zip lhs (shape a)))
    with (item a <$> ((fun b : list (nat * nat) => b.*2) <$> assignments (zip lhs (shape a))))
    by (by rewrite <- list_fmap_compose).
  rewrite assignments_zip_ndindex by done. by rewrite item_ndindex.
Qed.

Lemma output_extents_NoDup (env : extents) (seen out s : list nat) :
  output_extents env seen out = Ok s -> NoDup out /\ forall l, l ∈ out -> l ∉ seen.
Proof.
  revert seen s. induction out as [|l out IH]; intros seen s H.
  - split; [constructor|]. intros l Hl. by apply elem_of_nil in Hl.
  - cbn in H. case_bool_decide as Hseen; [done|].
    destruct (lookup_label l env); [|done].
    apply bind_Ok in H as (s' & Hs' & _). destruct (IH _ _ Hs') as [Hnd Hfresh]. split.
    + constructor; [|done]. intros Hl. apply (Hfresh l Hl). by left.
    + intros l' Hl'. apply elem_of_cons in Hl' as [->|Hl']; [done|].
      intros Hin. apply (Hfresh l' Hl'). by right.
Qed.

Lemma einsum_Ok (operands : list (list nat * ndarray)) (out : list nat) (a : ndarray) :
  einsum operands out = Ok a -> NoDup out /\ length (data a) = size (shape a).
Proof.
  unfold einsum. destruct operands as [|op operands]; [done|].
  intros H. apply bind_Ok in H as (env & _ & H). apply bind_Ok in H as (s & Hs & H).
  apply Ok_inj in H. subst a. split.
  - by apply output_extents_NoDup in Hs as [? _].
  - unfold fromfunction. cbn. by rewrite length_fmap, length_ndindex.
Qed.

Lemma getitem_wf (a b : ndarray) (ix : list index) :
  getitem a ix = Ok b -> length (data b) = size (shape b).
Proof.
  unfold getitem. intros H. apply bind_Ok in H as (_ & _ & H). apply Ok_inj in H. subst b.
  unfold fromfunction. cbn. by rewrite length_fmap, length_ndindex.
Qed.

(** What [jointProbability] returns is a whole array: its buffer has
    the length its shape asks for. *)
Lemma jointProbability_wf (g : BayesianNet) (vertexList : option (list _Vertex)) (p : ndarray) :
  jointProbability g vertexList = Ok p -> length (data p) = size (shape p).
Proof.
  unfold jointProbability. intros H. apply bind_Ok in H as (raw & Hraw & H).
  case_decide.
  - apply Ok_inj in H. subst p. unfold contraction in Hraw.
    apply bind_Ok in Hraw as (? & _ & Hraw). apply bind_Ok in Hraw as (? & _ & Hraw).
    apply bind_Ok in Hraw as (? & _ & Hraw). apply einsum_Ok in Hraw as [_ Hwf].
    cbn. by rewrite length_fmap.
  - apply bind_Ok in H as (dimList & _ & H). apply bind_Ok in H as (slicedProb & Hget & H).
    apply Ok_inj in H. subst p. apply getitem_wf in Hget. cbn. by rewrite length_fmap.
Qed.

Lemma traverse_filter_sublist {A B : Type} (f : A -> result B) (P : A -> Prop)
    `{!forall x, Decision (P x)} (l : list A) (ys zs : list B) :
  traverse f l = Ok ys -> traverse f (filter P l) = Ok zs -> sublist zs ys.
Proof.
  revert ys zs. induction l as [|x l IH]; intros ys zs Hys Hzs.
  - cbn in *. apply Ok_inj in Hys. apply Ok_inj in Hzs. by subst.
  - cbn in Hys. apply bind_Ok in Hys as (y & Hy & Hys).
    apply bind_Ok in Hys as (ys' & Hys' & Hys). apply Ok_inj in Hys. subst ys.
    rewrite filter_cons in Hzs. destruct (decide (P x)).
    + cbn in Hzs. rewrite Hy, bind_Ok_l in Hzs.
      apply bind_Ok in Hzs as (zs' & Hzs' & Hzs). apply Ok_inj in Hzs. subst zs.
      apply sublist_skip. by eapply IH.
    + apply sublist_cons. by eapply IH.
Qed.

(** A marginal that is computed from a joint has the total of that
    joint: [marginalProbability] sums to one whenever the array
    [jointProbability] gave it does. *)
Theorem marginalProbability_sum (g : BayesianNet) (uName : string) (total : bool)
    (p : ndarray) (u : _Vertex) (a : attributes) :
  vertexObject g uName = Ok u -> attached u = Some a ->
  ~ (dependencyList a = [] /\ evidenceList g = []) ->
  marginalProbability g uName total = Ok p ->
  exists vertexList jointProb,
    jointProbability g (Some vertexList) = Ok jointProb /\
    (sum p == sum jointProb)%Q /\
    ((sum jointProb == 1)%Q -> (sum p == 1)%Q).
Proof.
  intros Hu Ha Hslow H. unfold marginalProbability in H. rewrite Hu, bind_Ok_l in H.
  unfold getattr in H. rewrite Ha, bind_Ok_l in H. rewrite decide_False in H by done.
  apply bind_Ok in H as (vertexList & HvL & H). apply bind_Ok in H as (jointProb & HJ & H).
  apply bind_Ok in H as (lhs & Hlhs & H). apply bind_Ok in H as (rhs & Hrhs & H).
  assert (Hsum : (sum p == sum jointProb)%Q).
  { apply (einsum_sum lhs jointProb p rhs); [|by eapply jointProbability_wf|done].
    assert (Hq : queried g (Some vertexList) = vertexList).
    { unfold queried. case_decide as Hev; [done|]. cbn in HvL.
      by apply Ok_inj in HvL. }
    unfold jointProbability in HJ. rewrite Hq in HJ.
    apply bind_Ok in HJ as (raw & Hraw & _). unfold contraction in Hraw.
    apply bind_Ok in Hraw as (probList & _ & Hraw).
    apply bind_Ok in Hraw as (rhs1 & Hrhs1 & Hraw).
    apply bind_Ok in Hraw as (lhsList & _ & Hraw).
    apply einsum_Ok in Hraw as [Hnd _].
    exact (sublist_NoDup _ _ Hnd (traverse_filter_sublist _ _ _ _ _ Hrhs1 Hlhs)). }
  exists vertexList, jointProb. split; [done|]. split; [done|].
  intros H1. by rewrite Hsum.
Qed.

Lemma marginalProbability_sum_witness :
  let g := self (setEvidence [("rain", "T")] Examples.sprinkler) in
  exists p vertexList jointProb,
    marginalProbability g "grass wet" true = Ok p /\
    jointProbability g (Some vertexList) = Ok jointProb /\
    (sum p == sum jointProb)%Q.
Proof.
  intros g.
  eassert (Hp : marginalProbability g "grass wet" true = Ok _) by (vm_compute; reflexivity).
  eassert (Hu : vertexObject g "grass wet" = Ok _) by (vm_compute; reflexivity).
  match type of Hu with _ = Ok ?u =>
    eassert (Ha : attached u = Some _) by reflexivity
  end.
  match type of Ha with _ = Some ?a =>
    assert (Hslow : ~ (dependencyList a = [] /\ evidenceList g = []))
      by (intros [Hdeps _]; discriminate Hdeps)
  end.
  destruct (marginalProbability_sum g "grass wet" true _ _ _ Hu Ha Hslow Hp)
    as (vertexList & jointProb & HJ & Hsum & _).
  eexists _, vertexList, jointProb. split; [exact Hp|]. by split.
Defined.
